(** * spawnable: lifecycle tracker ([Spawned]) and spawn coordinator ([Spawnable])

    A shallow embedding of [src/Spawned.ts] and [src/Spawnable.ts] (latest
    revisions) together with the error classes they raise.  Mutable JavaScript
    objects are modelled by explicit state passing:

    - promise objects live in a heap (a list indexed by allocation order), so
      that every caller of [waitForSpawn] / [waitForExit] holds a reference to
      the very same cell;
    - the [eventemitter3] instance of a tracker is a finite map from event
      names to the ordered list of registered listeners;
    - listener closures are first-order values that remember which promise
      their captured [resolve] / [reject] functions belong to. *)

From Stdlib Require Import ZArith.
From stdpp Require Import base option gmap strings list.

Local Open Scope Z_scope.

(** ** Values shared by both classes *)

(** [NodeJS.Signals]: a platform-defined signal name. *)
Abbreviation Signals := string (only parsing).

(** The error objects that can travel through a rejection or a [throw].
    [PlainError] is [new Error(message)]; errors reported by the process
    handle through its ["error"] notification are arbitrary [Error] values.
    Exit codes are integers, so the [number] carried by
    [ExitedWithExitCodeError] is a [Z]. *)
Inductive Error : Type :=
| PlainError (message : string)
| AlreadySpawnedError
| EmptyCommandError
| NotYetSpawnedError
| ExitedWithExitCodeError (code : Z)
| KilledWithSignalError (signal : Signals).

#[global] Instance Error_eq_dec : EqDecision Error.
Proof. solve_decision. Defined.

(** Outcome of a synchronous call: a returned value or a thrown error. *)
Inductive Completion (A : Type) : Type :=
| Returns (a : A)
| Throws (e : Error).
Arguments Returns {A} a.
Arguments Throws {A} e.

(** ** Promises (JavaScript built-in)

    A promise is settled at most once; [resolve] and [reject] on a settled
    promise do nothing. *)
Module Promise.

Inductive t : Type :=
| Pending
| Fulfilled
| Rejected (reason : Error).

#[global] Instance t_eq_dec : EqDecision t.
Proof. solve_decision. Defined.

(** [new Promise(...)] / [Promise.resolve()]: a fresh cell at the next index. *)
Definition alloc (p : t) (h : list t) : nat * list t :=
  (List.length h, h ++ [p]).

Definition settle (id : nat) (v : t) (h : list t) : list t :=
  match h !! id with
  | Some Pending => <[id := v]> h
  | _ => h
  end.

Definition resolve (id : nat) (h : list t) : list t := settle id Fulfilled h.

Definition reject (id : nat) (reason : Error) (h : list t) : list t :=
  settle id (Rejected reason) h.

Definition settled (p : t) : bool :=
  match p with Pending => false | _ => true end.

End Promise.

(** ** eventemitter3 (external library)

    Only the part of the API the tracker uses: [once], [removeListener] with
    the [once] filter, and [emit].  The [context] argument is [undefined] at
    every call site and is left out. *)
Module EventEmitter.
Section Emitter.

(** [L] is the type of listener functions, compared by identity. *)
Context {L : Type} `{EqDecision L}.

Record Registration : Type := mkRegistration { fn : L; once_flag : bool }.

#[global] Instance Registration_eq_dec : EqDecision Registration.
Proof. solve_decision. Defined.

Definition addListener (event : string) (f : L) (once : bool)
    (ee : gmap string (list Registration)) : gmap string (list Registration) :=
  <[event := default [] (ee !! event) ++ [mkRegistration f once]]> ee.

Definition once (event : string) (f : L) := addListener event f true.

(** [removeListener(event, fn, undefined, once)]: keeps the registrations
    that are for another function, or that are not one-shot when [once] is
    requested; drops the event key when nothing is left. *)
Definition removeListener (event : string) (f : L) (once : bool)
    (ee : gmap string (list Registration)) : gmap string (list Registration) :=
  match ee !! event with
  | None => ee
  | Some ls =>
      let events :=
        filter (fun r => fn r ≠ f ∨ (once = true ∧ once_flag r = false)) ls in
      match events with
      | [] => delete event ee
      | _ => <[event := events]> ee
      end
  end.

(** [emit] walks the listener array as it was when the call started; a
    one-shot registration is removed right before its function runs.
    [S] is the state the listeners act on, [get]/[set] focus on the emitter
    inside it and [call] runs a listener on the emitted arguments. *)
Context {S A : Type}.
Variable get : S → gmap string (list Registration).
Variable set : gmap string (list Registration) → S → S.
Variable call : L → A → S → S.

Fixpoint emit_each (event : string) (args : A)
    (listeners : list Registration) (s : S) : S :=
  match listeners with
  | [] => s
  | r :: rest =>
      let s1 :=
        if once_flag r then set (removeListener event (fn r) true (get s)) s
        else s in
      emit_each event args rest (call (fn r) args s1)
  end.

Definition emit (event : string) (args : A) (s : S) : S :=
  match get s !! event with
  | None => s
  | Some listeners => emit_each event args listeners s
  end.

End Emitter.
Arguments Registration : clear implicits.
End EventEmitter.

(** ** The process handle ([ChildProcess] of node:child_process)

    [pid] is [undefined] until the process has an identity; [signalsSent]
    records the calls to [kill]. *)
Record ChildProcess : Type := mkChildProcess {
  pid : option nat;
  signalsSent : list Signals
}.

Definition ChildProcess_kill (signal : Signals) (cp : ChildProcess) : ChildProcess :=
  {| pid := pid cp; signalsSent := signalsSent cp ++ [signal] |}.

(** The notifications a handle delivers to its subscribers. *)
Inductive Notification : Type :=
| NSpawn
| NError (error : Error)
| NClose (code : option Z) (signal : option Signals)
| NExit (code : option Z) (signal : option Signals).

(** ** Spawned: the lifecycle tracker *)
Module Spawned.

(** The four closures created by [createSpawnPromise] and
    [createExitPromise]; the index is the promise whose [resolve] and
    [reject] the closure captured. *)
Inductive Listener : Type :=
| SpawnPromise_onSpawn (p : nat)
| SpawnPromise_onError (p : nat)
| ExitPromise_onExit (p : nat)
| ExitPromise_onError (p : nat).

#[global] Instance Listener_eq_dec : EqDecision Listener.
Proof. solve_decision. Defined.

(** Arguments passed along with an emitted event. *)
Inductive Args : Type :=
| ArgsNone
| ArgsError (error : Error)
| ArgsExit (code : option Z) (signal : option Signals).

Record t : Type := mk {
  _childProcess : ChildProcess;
  _spawned : bool;
  _done : bool;
  _exitCode : option Z;
  _signal : option Signals;
  spawnPromise : nat;
  exitPromise : nat;
  eventEmitter : gmap string (list (EventEmitter.Registration Listener))
}.

(** A tracker together with the promise heap its closures write to. *)
Record State : Type := mkState {
  this : t;
  promises : list Promise.t
}.

Definition set_childProcess (cp : ChildProcess) (o : t) : t :=
  mk cp (_spawned o) (_done o) (_exitCode o) (_signal o)
     (spawnPromise o) (exitPromise o) (eventEmitter o).
Definition set_spawned (b : bool) (o : t) : t :=
  mk (_childProcess o) b (_done o) (_exitCode o) (_signal o)
     (spawnPromise o) (exitPromise o) (eventEmitter o).
Definition set_done (b : bool) (o : t) : t :=
  mk (_childProcess o) (_spawned o) b (_exitCode o) (_signal o)
     (spawnPromise o) (exitPromise o) (eventEmitter o).
Definition set_exitCode (c : option Z) (o : t) : t :=
  mk (_childProcess o) (_spawned o) (_done o) c (_signal o)
     (spawnPromise o) (exitPromise o) (eventEmitter o).
Definition set_signal (sg : option Signals) (o : t) : t :=
  mk (_childProcess o) (_spawned o) (_done o) (_exitCode o) sg
     (spawnPromise o) (exitPromise o) (eventEmitter o).
Definition set_eventEmitter
    (ee : gmap string (list (EventEmitter.Registration Listener))) (o : t) : t :=
  mk (_childProcess o) (_spawned o) (_done o) (_exitCode o) (_signal o)
     (spawnPromise o) (exitPromise o) ee.

Definition get_ee (s : State) := eventEmitter (this s).
Definition set_ee (ee : gmap string (list (EventEmitter.Registration Listener)))
    (s : State) : State :=
  mkState (set_eventEmitter ee (this s)) (promises s).
Definition upd_this (f : t → t) (s : State) : State :=
  mkState (f (this s)) (promises s).
Definition upd_promises (f : list Promise.t → list Promise.t) (s : State) : State :=
  mkState (this s) (f (promises s)).

(** *** Listener bodies *)

(** [cleanup] of [createSpawnPromise]. *)
Definition spawn_cleanup (p : nat) (s : State) : State :=
  set_ee
    (EventEmitter.removeListener "spawn" (SpawnPromise_onSpawn p) true
       (EventEmitter.removeListener "error" (SpawnPromise_onError p) true
          (get_ee s)))
    s.

(** [cleanup] of [createExitPromise]. *)
Definition exit_cleanup (p : nat) (s : State) : State :=
  set_ee
    (EventEmitter.removeListener "exit" (ExitPromise_onExit p) true
       (EventEmitter.removeListener "error" (ExitPromise_onError p) true
          (get_ee s)))
    s.

(** [onExit] of [createExitPromise]. *)
Definition exit_onExit (p : nat) (code : option Z) (signal : option Signals)
    (s : State) : State :=
  let s := exit_cleanup p s in
  match signal with
  | Some sg => upd_promises (Promise.reject p (KilledWithSignalError sg)) s
  | None =>
      match code with
      | None =>
          upd_promises
            (Promise.reject p (PlainError "Both code and signal are null.")) s
      | Some c =>
          if c =? 0 then upd_promises (Promise.resolve p) s
          else upd_promises (Promise.reject p (ExitedWithExitCodeError c)) s
      end
  end.

(** Running a listener on the arguments of the event it is registered for.
    The emitter routes ["spawn"] to [ArgsNone], ["error"] to [ArgsError] and
    ["exit"] to [ArgsExit]; the remaining combinations do not occur. *)
Definition call (l : Listener) (a : Args) (s : State) : State :=
  match l, a with
  | SpawnPromise_onSpawn p, ArgsNone =>
      upd_promises (Promise.resolve p) (spawn_cleanup p s)
  | SpawnPromise_onError p, ArgsError e =>
      upd_promises (Promise.reject p e) (spawn_cleanup p s)
  | ExitPromise_onExit p, ArgsExit code signal => exit_onExit p code signal s
  | ExitPromise_onError p, ArgsError e =>
      upd_promises (Promise.reject p e) (exit_cleanup p s)
  | _, _ => s
  end.

Definition emit (event : string) (a : Args) (s : State) : State :=
  EventEmitter.emit get_ee set_ee call event a s.

(** *** Handlers subscribed to the process handle *)

Definition onSpawn (s : State) : State :=
  emit "spawn" ArgsNone (upd_this (set_spawned true) s).

Definition onError (error : Error) (s : State) : State :=
  emit "error" (ArgsError error) s.

(** JavaScript truthiness of [signal: NodeJS.Signals | null]. *)
Definition truthy (signal : option Signals) : bool :=
  match signal with
  | None => false
  | Some sg => if decide (sg = "") then false else true
  end.

Definition onCloseOrExit (code : option Z) (signal : option Signals)
    (s : State) : State :=
  if _done (this s) then s
  else
    let s := upd_this (set_done true) s in
    let s := match code with
             | Some c => upd_this (set_exitCode (Some c)) s
             | None => s
             end in
    let s := if truthy signal then upd_this (set_signal signal) s else s in
    emit "exit" (ArgsExit code signal) s.

(** *** Construction *)

Definition createSpawnPromise (childProcess : ChildProcess)
    (ee : gmap string (list (EventEmitter.Registration Listener)))
    (h : list Promise.t)
  : nat * gmap string (list (EventEmitter.Registration Listener)) * list Promise.t :=
  match pid childProcess with
  | Some _ =>
      let '(p, h) := Promise.alloc Promise.Fulfilled h in (p, ee, h)
  | None =>
      let '(p, h) := Promise.alloc Promise.Pending h in
      (p,
       EventEmitter.once "spawn" (SpawnPromise_onSpawn p)
         (EventEmitter.once "error" (SpawnPromise_onError p) ee),
       h)
  end.

Definition createExitPromise
    (ee : gmap string (list (EventEmitter.Registration Listener)))
    (h : list Promise.t)
  : nat * gmap string (list (EventEmitter.Registration Listener)) * list Promise.t :=
  let '(p, h) := Promise.alloc Promise.Pending h in
  (p,
   EventEmitter.once "exit" (ExitPromise_onExit p)
     (EventEmitter.once "error" (ExitPromise_onError p) ee),
   h).

(** [new Spawned(childProcess)], allocating in heap [h]. *)
Definition new (childProcess : ChildProcess) (h : list Promise.t) : State :=
  let '(sp, ee, h) := createSpawnPromise childProcess ∅ h in
  let '(ep, ee, h) := createExitPromise ee h in
  mkState (mk childProcess false false None None sp ep ee) h.

(** The constructor subscribes [onSpawn] to ["spawn"], [onError] to
    ["error"] and [onCloseOrExit] to both ["close"] and ["exit"]. *)
Definition deliver (n : Notification) (s : State) : State :=
  match n with
  | NSpawn => onSpawn s
  | NError e => onError e s
  | NClose code signal => onCloseOrExit code signal s
  | NExit code signal => onCloseOrExit code signal s
  end.

(** *** Public methods *)

Definition hasSpawned (o : t) : bool := _spawned o.
Definition isDone (o : t) : bool := _done o.
Definition wasKilled (o : t) : bool :=
  match _signal o with Some _ => true | None => false end.
(** [this._exitCode === 0] and [this._exitCode !== 0], with [_exitCode]
    possibly [undefined]. *)
Definition hasExitedSuccessfully (o : t) : bool :=
  negb (wasKilled o) && bool_decide (_exitCode o = Some 0).
Definition hasExitedWithError (o : t) : bool :=
  negb (wasKilled o) && negb (bool_decide (_exitCode o = Some 0)).
Definition signal (o : t) : option Signals := _signal o.
Definition exitCode (o : t) : option Z := _exitCode o.
Definition childProcess (o : t) : ChildProcess := _childProcess o.

(** [kill(signal = "SIGINT")]. *)
Definition kill (signal : option Signals) (s : State) : State :=
  upd_this
    (fun o => set_childProcess
                (ChildProcess_kill (default "SIGINT" signal) (_childProcess o)) o)
    s.

(** Both return the promise object stored at construction. *)
Definition waitForSpawn (o : t) : nat := spawnPromise o.
Definition waitForExit (o : t) : nat := exitPromise o.

(** What a caller awaiting promise [p] observes in state [s]. *)
Definition observe (p : nat) (s : State) : option Promise.t := promises s !! p.

(** *** Executions *)

Inductive Step : Type :=
| Notify (n : Notification)
| Kill (signal : option Signals).

Definition step (st : Step) (s : State) : State :=
  match st with
  | Notify n => deliver n s
  | Kill sg => kill sg s
  end.

Definition run (sts : list Step) (s : State) : State :=
  foldl (fun s st => step st s) s sts.

Inductive reachable : State → Prop :=
| reachable_new cp h : reachable (new cp h)
| reachable_step st s : reachable s → reachable (step st s).

End Spawned.

(** ** node:child_process (external module)

    [spawn(command, args, options)] either throws synchronously or returns a
    handle; [spawn_calls] records every invocation. *)
Record SpawnOptions : Type := mkSpawnOptions {
  shell : bool;
  cwd : option string;
  env : list (string * string)
}.

Record SpawnCall : Type := mkSpawnCall {
  call_command : string;
  call_args : list string;
  call_options : option SpawnOptions
}.

Record ChildProcessModule : Type := mkChildProcessModule {
  spawn_impl : SpawnCall → Completion ChildProcess;
  spawn_calls : list SpawnCall
}.

Definition node_spawn (c : SpawnCall) (m : ChildProcessModule)
  : Completion ChildProcess * ChildProcessModule :=
  (spawn_impl m c, mkChildProcessModule (spawn_impl m) (spawn_calls m ++ [c])).

(** ** Spawnable: the spawn coordinator *)
Module Spawnable.

Record t : Type := mk {
  command : list string;
  options : option SpawnOptions;
  spawned : option Spawned.t
}.

(** The coordinator, the promise heap and the process-creation module. *)
Record World : Type := mkWorld {
  this : t;
  promises : list Promise.t;
  child_process : ChildProcessModule
}.

Definition new (command : list string) (options : option SpawnOptions) : t :=
  mk command options None.

Definition set_spawned (sp : option Spawned.t) (o : t) : t :=
  mk (command o) (options o) sp.

(** An [async] method runs synchronously up to its first [await].  It
    either throws before that (its promise is rejected with the error) or
    suspends on promise [p]; every such method here only returns after the
    [await], so its own promise then settles the way [p] does. *)
Inductive Async : Type :=
| AsyncThrows (e : Error)
| AsyncAwaits (p : nat).

Definition outcome (a : Async) (h : list Promise.t) : option Promise.t :=
  match a with
  | AsyncThrows e => Some (Promise.Rejected e)
  | AsyncAwaits p => h !! p
  end.

Definition spawn (w : World) : Async * World :=
  match spawned (this w) with
  | Some _ => (AsyncThrows AlreadySpawnedError, w)
  | None =>
      match command (this w) with
      | [] => (AsyncThrows EmptyCommandError, w)
      | first :: rest =>
          if decide (first = "") then (AsyncThrows EmptyCommandError, w)
          else
            let '(r, m) :=
              node_spawn (mkSpawnCall first rest (options (this w)))
                (child_process w) in
            match r with
            | Throws e => (AsyncThrows e, mkWorld (this w) (promises w) m)
            | Returns childProcess =>
                let s := Spawned.new childProcess (promises w) in
                (AsyncAwaits (Spawned.waitForSpawn (Spawned.this s)),
                 mkWorld (set_spawned (Some (Spawned.this s)) (this w))
                   (Spawned.promises s) m)
            end
      end
  end.

Definition hasSpawned (o : t) : bool :=
  match spawned o with Some sp => Spawned.hasSpawned sp | None => false end.
Definition isDone (o : t) : bool :=
  match spawned o with Some sp => Spawned.isDone sp | None => false end.
Definition wasKilled (o : t) : bool :=
  match spawned o with Some sp => Spawned.wasKilled sp | None => false end.
Definition hasExitedSuccessfully (o : t) : bool :=
  match spawned o with
  | Some sp => Spawned.hasExitedSuccessfully sp
  | None => false
  end.
Definition hasExitedWithError (o : t) : bool :=
  match spawned o with
  | Some sp => Spawned.hasExitedWithError sp
  | None => false
  end.
Definition signal (o : t) : option Signals :=
  match spawned o with Some sp => Spawned.signal sp | None => None end.
Definition exitCode (o : t) : option Z :=
  match spawned o with Some sp => Spawned.exitCode sp | None => None end.
Definition childProcess (o : t) : option ChildProcess :=
  match spawned o with Some sp => Some (Spawned.childProcess sp) | None => None end.

(** Runs a tracker operation on the tracker owned by the coordinator. *)
Definition with_spawned (f : Spawned.State → Spawned.State) (sp : Spawned.t)
    (w : World) : World :=
  let s := f (Spawned.mkState sp (promises w)) in
  mkWorld (set_spawned (Some (Spawned.this s)) (this w)) (Spawned.promises s)
    (child_process w).

Definition kill (signal : option Signals) (w : World) : Completion unit * World :=
  match spawned (this w) with
  | None => (Throws NotYetSpawnedError, w)
  | Some sp =>
      (Returns tt,
       with_spawned (Spawned.kill (Some (default "SIGINT" signal))) sp w)
  end.

Definition waitForSpawn (w : World) : Async :=
  match spawned (this w) with
  | None => AsyncThrows NotYetSpawnedError
  | Some sp => AsyncAwaits (Spawned.waitForSpawn sp)
  end.

Definition waitForExit (w : World) : Async :=
  match spawned (this w) with
  | None => AsyncThrows NotYetSpawnedError
  | Some sp => AsyncAwaits (Spawned.waitForExit sp)
  end.

(** *** The public interface as one dispatcher *)

Inductive Method : Type :=
| M_spawn
| M_hasSpawned
| M_isDone
| M_wasKilled
| M_hasExitedSuccessfully
| M_hasExitedWithError
| M_signal
| M_exitCode
| M_childProcess
| M_kill (signal : option Signals)
| M_waitForSpawn
| M_waitForExit.

Inductive Value : Type :=
| VUndefined
| VBoolean (b : bool)
| VNumber (n : Z)
| VString (s : string)
| VChildProcess (cp : ChildProcess)
| VPromise (a : Async).

Definition of_option {A} (f : A → Value) (o : option A) : Value :=
  match o with Some a => f a | None => VUndefined end.

Definition invoke (m : Method) (w : World) : Completion Value * World :=
  match m with
  | M_spawn => let '(a, w') := spawn w in (Returns (VPromise a), w')
  | M_hasSpawned => (Returns (VBoolean (hasSpawned (this w))), w)
  | M_isDone => (Returns (VBoolean (isDone (this w))), w)
  | M_wasKilled => (Returns (VBoolean (wasKilled (this w))), w)
  | M_hasExitedSuccessfully =>
      (Returns (VBoolean (hasExitedSuccessfully (this w))), w)
  | M_hasExitedWithError => (Returns (VBoolean (hasExitedWithError (this w))), w)
  | M_signal => (Returns (of_option VString (signal (this w))), w)
  | M_exitCode => (Returns (of_option VNumber (exitCode (this w))), w)
  | M_childProcess => (Returns (of_option VChildProcess (childProcess (this w))), w)
  | M_kill sg =>
      match kill sg w with
      | (Returns _, w') => (Returns VUndefined, w')
      | (Throws e, w') => (Throws e, w')
      end
  | M_waitForSpawn => (Returns (VPromise (waitForSpawn w)), w)
  | M_waitForExit => (Returns (VPromise (waitForExit w)), w)
  end.

(** *** Executions: method calls interleaved with notifications from the
    handle of the tracked process (if there is one). *)

Inductive Step : Type :=
| Invoke (m : Method)
| Notify (n : Notification).

Definition step (st : Step) (w : World) : World :=
  match st with
  | Invoke m => snd (invoke m w)
  | Notify n =>
      match spawned (this w) with
      | Some sp => with_spawned (Spawned.deliver n) sp w
      | None => w
      end
  end.

Definition run (sts : list Step) (w : World) : World :=
  foldl (fun w st => step st w) w sts.

Definition init (command : list string) (options : option SpawnOptions)
    (impl : SpawnCall → Completion ChildProcess) : World :=
  mkWorld (new command options) [] (mkChildProcessModule impl []).

Inductive reachable : World → Prop :=
| reachable_init command options impl : reachable (init command options impl)
| reachable_step st w : reachable w → reachable (step st w).

End Spawnable.

(** ** Invariant of the tracker

    Which listeners are registered is determined by which of the two promises
    are still pending. *)
Module SpawnedInv.
Import Spawned.

Definition reg (l : Listener) : EventEmitter.Registration Listener :=
  EventEmitter.mkRegistration l true.

(** [shape sp ep x y z w ee]: the ["spawn"] listener of promise [sp] is
    registered iff [x], its ["error"] listener iff [y], the ["error"]
    listener of promise [ep] iff [z] and its ["exit"] listener iff [w]. *)
Definition shape (sp ep : nat) (x y z w : bool)
    (ee : gmap string (list (EventEmitter.Registration Listener))) : Prop :=
  ee !! "spawn" = (if x then Some [reg (SpawnPromise_onSpawn sp)] else None) ∧
  ee !! "error" =
    match (if y then [reg (SpawnPromise_onError sp)] else []) ++
          (if z then [reg (ExitPromise_onError ep)] else []) with
    | [] => None
    | l => Some l
    end ∧
  ee !! "exit" = (if w then Some [reg (ExitPromise_onExit ep)] else None).

Definition pendingb (p : nat) (h : list Promise.t) : bool :=
  bool_decide (h !! p = Some Promise.Pending).

Record Inv (s : State) : Prop := mkInv {
  inv_ne : spawnPromise (this s) ≠ exitPromise (this s);
  inv_sp : is_Some (promises s !! spawnPromise (this s));
  inv_ep : is_Some (promises s !! exitPromise (this s));
  inv_shape :
    shape (spawnPromise (this s)) (exitPromise (this s))
      (pendingb (spawnPromise (this s)) (promises s))
      (pendingb (spawnPromise (this s)) (promises s))
      (pendingb (exitPromise (this s)) (promises s))
      (pendingb (exitPromise (this s)) (promises s))
      (eventEmitter (this s));
  inv_done : _done (this s) = true →
             pendingb (exitPromise (this s)) (promises s) = false;
  inv_spawned : _spawned (this s) = true →
                pendingb (spawnPromise (this s)) (promises s) = false;
  inv_code : is_Some (_exitCode (this s)) → _done (this s) = true;
  inv_signal : is_Some (_signal (this s)) → _done (this s) = true
}.

(** What [onExit] of [createExitPromise] decides for a termination
    notification. *)
Definition exit_decision (code : option Z) (signal : option Signals) : Promise.t :=
  match signal with
  | Some sg => Promise.Rejected (KilledWithSignalError sg)
  | None =>
      match code with
      | None => Promise.Rejected (PlainError "Both code and signal are null.")
      | Some c =>
          if c =? 0 then Promise.Fulfilled
          else Promise.Rejected (ExitedWithExitCodeError c)
      end
  end.

(** [frame s s']: [s'] differs from [s] at most in the listeners and in
    the promise heap. *)
Definition frame (s s' : State) : Prop :=
  ∃ ee, this s' = set_eventEmitter ee (this s).

(** [heap_stable h h']: every promise settled in [h] has the same value
    in [h']. *)
Definition heap_stable (h h' : list Promise.t) : Prop :=
  ∀ p x, h !! p = Some x → x ≠ Promise.Pending → h' !! p = Some x.

End SpawnedInv.

(** ** Reading an execution of the tracker *)

(** The signals requested by the [kill] calls of an execution, in order;
    a call without argument asks for ["SIGINT"]. *)
Definition kill_signals (sts : list Spawned.Step) : list Signals :=
  omap (fun st => match st with
                  | Spawned.Kill sg => Some (default "SIGINT" sg)
                  | Spawned.Notify _ => None
                  end) sts.

(** The steps that deliver a ["close"] or an ["exit"] notification. *)
Definition is_termination (st : Spawned.Step) : bool :=
  match st with
  | Spawned.Notify (NClose _ _) | Spawned.Notify (NExit _ _) => true
  | _ => false
  end.

(** * Properties *)

(** ** Promise heap *)

Lemma Promise_settle_settled id v (h : list Promise.t) p x :
  h !! p = Some x → x ≠ Promise.Pending → Promise.settle id v h !! p = Some x.
Proof.
  intros Hp Hx. unfold Promise.settle.
  destruct (h !! id) as [[]|] eqn:Hid; try done.
  destruct (decide (id = p)) as [->|Hne]; [congruence|].
  by rewrite list_lookup_insert_ne.
Qed.

Lemma Promise_settle_pending id v (h : list Promise.t) :
  h !! id = Some Promise.Pending → Promise.settle id v h !! id = Some v.
Proof.
  intros Hid. unfold Promise.settle. rewrite Hid.
  apply list_lookup_insert_eq. by eapply lookup_lt_Some.
Qed.

Lemma Promise_settle_ne id v (h : list Promise.t) p :
  id ≠ p → Promise.settle id v h !! p = h !! p.
Proof.
  intros Hne. unfold Promise.settle.
  destruct (h !! id) as [[]|]; try done. by rewrite list_lookup_insert_ne.
Qed.

Lemma Promise_settle_not_pending id v (h : list Promise.t) :
  h !! id ≠ Some Promise.Pending → Promise.settle id v h = h.
Proof. intros Hid. unfold Promise.settle. by destruct (h !! id) as [[]|]. Qed.

(** ** Event emitter *)

Section EmitterFacts.
Context {L : Type} `{EqDecision L}.
Implicit Types ee : gmap string (list (EventEmitter.Registration L)).

Lemma lookup_removeListener_ne event f o ee k :
  k ≠ event → EventEmitter.removeListener event f o ee !! k = ee !! k.
Proof.
  intros Hne. unfold EventEmitter.removeListener.
  destruct (ee !! event) as [ls|] eqn:Hev; [|done].
  destruct (filter _ ls); [by rewrite lookup_delete_ne|by rewrite lookup_insert_ne].
Qed.

Lemma lookup_removeListener_eq event f o ee :
  EventEmitter.removeListener event f o ee !! event =
  match ee !! event with
  | None => None
  | Some ls =>
      match filter (fun r => EventEmitter.fn r ≠ f ∨
                             (o = true ∧ EventEmitter.once_flag r = false)) ls with
      | [] => None
      | l => Some l
      end
  end.
Proof.
  unfold EventEmitter.removeListener.
  destruct (ee !! event) as [ls|] eqn:Hev; [|done].
  destruct (filter _ ls); [by rewrite lookup_delete_eq|by rewrite lookup_insert_eq].
Qed.

End EmitterFacts.

(** ** Tracker *)

Section TrackerFacts.
Import Spawned SpawnedInv.
Implicit Types (s : State) (ee : gmap string (list (EventEmitter.Registration Listener))).

Ltac shape_solve :=
  repeat (rewrite lookup_removeListener_eq || (rewrite lookup_removeListener_ne by done));
  repeat match goal with H : _ !! _ = _ |- _ => rewrite H end;
  simpl; repeat (rewrite filter_cons || rewrite filter_nil);
  repeat case_decide; simpl in *; try done; try (exfalso; intuition congruence).

Lemma shape_remove_spawn sp ep x y z w ee :
  shape sp ep x y z w ee →
  shape sp ep false y z w
    (EventEmitter.removeListener "spawn" (SpawnPromise_onSpawn sp) true ee).
Proof.
  intros (Hs & He & Hx). unfold shape.
  split_and!; destruct x, y, z, w; shape_solve.
Qed.

Lemma shape_remove_spawn_error sp ep x y z w ee :
  shape sp ep x y z w ee →
  shape sp ep x false z w
    (EventEmitter.removeListener "error" (SpawnPromise_onError sp) true ee).
Proof.
  intros (Hs & He & Hx). unfold shape.
  split_and!; destruct x, y, z, w; shape_solve.
Qed.

Lemma shape_remove_exit_error sp ep x y z w ee :
  shape sp ep x y z w ee →
  shape sp ep x y false w
    (EventEmitter.removeListener "error" (ExitPromise_onError ep) true ee).
Proof.
  intros (Hs & He & Hx). unfold shape.
  split_and!; destruct x, y, z, w; shape_solve.
Qed.

Lemma shape_remove_exit sp ep x y z w ee :
  shape sp ep x y z w ee →
  shape sp ep x y z false
    (EventEmitter.removeListener "exit" (ExitPromise_onExit ep) true ee).
Proof.
  intros (Hs & He & Hx). unfold shape.
  split_and!; destruct x, y, z, w; shape_solve.
Qed.

Ltac shape_chain :=
  repeat (eapply shape_remove_spawn || eapply shape_remove_spawn_error ||
          eapply shape_remove_exit_error || eapply shape_remove_exit);
  eassumption.

(** *** Pending cells *)

Lemma pendingb_settle_eq p v (h : list Promise.t) :
  v ≠ Promise.Pending → pendingb p (Promise.settle p v h) = false.
Proof.
  intros Hv. unfold pendingb. apply bool_decide_eq_false.
  destruct (decide (h !! p = Some Promise.Pending)) as [Hp|Hp].
  - rewrite Promise_settle_pending by done. congruence.
  - by rewrite Promise_settle_not_pending.
Qed.

Lemma pendingb_settle_ne p q v (h : list Promise.t) :
  p ≠ q → pendingb q (Promise.settle p v h) = pendingb q h.
Proof. intros Hne. unfold pendingb. by rewrite Promise_settle_ne. Qed.

Lemma is_Some_settle p q v (h : list Promise.t) :
  is_Some (h !! q) → is_Some (Promise.settle p v h !! q).
Proof.
  intros Hq. unfold Promise.settle.
  destruct (h !! p) as [[]|] eqn:Hp; try done.
  apply lookup_lt_is_Some. rewrite length_insert. by apply lookup_lt_is_Some.
Qed.

Lemma pendingb_true p (h : list Promise.t) :
  pendingb p h = true ↔ h !! p = Some Promise.Pending.
Proof. unfold pendingb. apply bool_decide_eq_true. Qed.

Lemma pendingb_false p (h : list Promise.t) :
  pendingb p h = false ↔ h !! p ≠ Some Promise.Pending.
Proof. unfold pendingb. apply bool_decide_eq_false. Qed.

(** *** Listeners only touch the emitter and the promise heap *)

Lemma frame_refl s : frame s s.
Proof. exists (eventEmitter (this s)). by destruct s as [[] ?]. Qed.

Lemma frame_trans s1 s2 s3 : frame s1 s2 → frame s2 s3 → frame s1 s3.
Proof. intros [e1 H1] [e2 H2]. exists e2. rewrite H2, H1. done. Qed.

Lemma frame_set_ee ee s : frame s (set_ee ee s).
Proof. by exists ee. Qed.

Lemma frame_upd_promises f s : frame s (upd_promises f s).
Proof. exists (eventEmitter (this s)). by destruct s as [[] ?]. Qed.

Lemma call_frame l a s : frame s (call l a s).
Proof.
  destruct l, a; simpl; try apply frame_refl;
    unfold exit_onExit; repeat case_match;
    (eapply frame_trans; [|apply frame_upd_promises]); apply frame_set_ee.
Qed.

Lemma emit_each_frame event a ls s :
  frame s (EventEmitter.emit_each get_ee set_ee call event a ls s).
Proof.
  revert s. induction ls as [|r ls IH]; intros s; simpl; [apply frame_refl|].
  eapply frame_trans; [|apply IH].
  eapply frame_trans; [|apply call_frame].
  destruct (EventEmitter.once_flag r); [apply frame_set_ee|apply frame_refl].
Qed.

Lemma emit_frame event a s : frame s (emit event a s).
Proof.
  unfold emit, EventEmitter.emit. destruct (get_ee s !! event).
  - apply emit_each_frame.
  - apply frame_refl.
Qed.

(** *** A settled promise is never written again *)

Lemma heap_stable_refl h : heap_stable h h.
Proof. by intros p x. Qed.

Lemma heap_stable_trans h1 h2 h3 :
  heap_stable h1 h2 → heap_stable h2 h3 → heap_stable h1 h3.
Proof. intros H1 H2 p x Hp Hx. eauto. Qed.

Lemma heap_stable_settle id v h : heap_stable h (Promise.settle id v h).
Proof. intros p x Hp Hx. by apply Promise_settle_settled. Qed.

Lemma call_stable l a s : heap_stable (promises s) (promises (call l a s)).
Proof.
  destruct l, a; simpl; try apply heap_stable_refl;
    unfold exit_onExit; repeat case_match; apply heap_stable_settle.
Qed.

Lemma emit_each_stable event a ls s :
  heap_stable (promises s)
    (promises (EventEmitter.emit_each get_ee set_ee call event a ls s)).
Proof.
  revert s. induction ls as [|r ls IH]; intros s; simpl; [apply heap_stable_refl|].
  eapply heap_stable_trans; [|apply IH].
  eapply heap_stable_trans; [|apply call_stable].
  destruct (EventEmitter.once_flag r); apply heap_stable_refl.
Qed.

Lemma emit_stable event a s : heap_stable (promises s) (promises (emit event a s)).
Proof.
  unfold emit, EventEmitter.emit. destruct (get_ee s !! event).
  - apply emit_each_stable.
  - apply heap_stable_refl.
Qed.

Lemma deliver_stable n s : heap_stable (promises s) (promises (deliver n s)).
Proof.
  assert (Hce : ∀ c sg, heap_stable (promises s) (promises (onCloseOrExit c sg s))).
  { intros c sg. unfold onCloseOrExit. destruct (_done (this s)).
    - apply heap_stable_refl.
    - eapply heap_stable_trans; [|apply emit_stable].
      destruct c, (truthy sg); apply heap_stable_refl. }
  destruct n; simpl; auto.
  - unfold onSpawn. eapply heap_stable_trans; [|apply emit_stable].
    apply heap_stable_refl.
  - apply emit_stable.
Qed.

Lemma step_stable st s : heap_stable (promises s) (promises (step st s)).
Proof. destruct st; simpl; [apply deliver_stable|apply heap_stable_refl]. Qed.

Lemma run_stable sts s : heap_stable (promises s) (promises (run sts s)).
Proof.
  revert s. induction sts as [|st sts IH]; intros s; simpl.
  - apply heap_stable_refl.
  - eapply heap_stable_trans; [apply step_stable|apply IH].
Qed.

(** *** The invariant holds in every reachable state *)

Lemma lookup_alloc_last (h : list Promise.t) x : (h ++ [x]) !! List.length h = Some x.
Proof. rewrite lookup_app_r by lia. by rewrite Nat.sub_diag. Qed.

Lemma lookup_alloc_first (h : list Promise.t) x y :
  ((h ++ [x]) ++ [y]) !! List.length h = Some x.
Proof.
  rewrite lookup_app_l by (rewrite length_app; simpl; lia).
  apply lookup_alloc_last.
Qed.

Lemma new_Inv cp h : Inv (new cp h).
Proof.
  unfold new, createSpawnPromise, createExitPromise, Promise.alloc.
  destruct (pid cp) as [n|]; simpl.
  - constructor; simpl; try done.
    + rewrite length_app; simpl; lia.
    + rewrite lookup_alloc_first. done.
    + rewrite lookup_alloc_last. done.
    + unfold pendingb. rewrite lookup_alloc_first, lookup_alloc_last.
      rewrite bool_decide_eq_false_2 by done.
      rewrite bool_decide_eq_true_2 by done.
      unfold shape, EventEmitter.once, EventEmitter.addListener.
      split_and!; by simplify_map_eq.
  - constructor; simpl; try done.
    + rewrite length_app; simpl; lia.
    + rewrite lookup_alloc_first. done.
    + rewrite lookup_alloc_last. done.
    + unfold pendingb. rewrite lookup_alloc_first, lookup_alloc_last.
      rewrite !bool_decide_eq_true_2 by done.
      unfold shape, EventEmitter.once, EventEmitter.addListener.
      split_and!; by simplify_map_eq.
Qed.

Ltac inv_start :=
  let Hsh := fresh "Hsh" in
  intros [Hne Hsp Hep Hsh Hd Hs Hc Hg];
  match goal with s : State |- _ =>
    destruct s as [[cp sd dn ec sg sp ep ee] h] end;
  simpl in *;
  pose proof Hsh as (Hl1 & Hl2 & Hl3).

Ltac unfold_listeners :=
  unfold exit_onExit, upd_promises, upd_this, spawn_cleanup, exit_cleanup,
    set_ee, get_ee, Promise.resolve, Promise.reject in *; simpl in *.

Ltac pend :=
  repeat first [ rewrite pendingb_settle_eq by done
               | rewrite pendingb_settle_ne by done ].

Ltac inv_close Ha Hb :=
  constructor; simpl; auto using is_Some_settle;
  pend; rewrite ?Ha, ?Hb;
  first [ shape_chain | by (intros; pend; rewrite ?Ha, ?Hb; auto) ].

Lemma onSpawn_Inv s : Inv s → Inv (onSpawn s).
Proof.
  inv_start.
  unfold onSpawn, emit, EventEmitter.emit; unfold_listeners. rewrite Hl1.
  destruct (pendingb sp h) eqn:Ha, (pendingb ep h) eqn:Hb; simpl;
    unfold_listeners; inv_close Ha Hb.
Qed.

Lemma onError_Inv e s : Inv s → Inv (onError e s).
Proof.
  inv_start.
  unfold onError, emit, EventEmitter.emit; unfold_listeners. rewrite Hl2.
  destruct (pendingb sp h) eqn:Ha, (pendingb ep h) eqn:Hb; simpl;
    unfold_listeners; inv_close Ha Hb.
Qed.

Lemma onCloseOrExit_Inv code signal s : Inv s → Inv (onCloseOrExit code signal s).
Proof.
  inv_start.
  unfold onCloseOrExit; simpl. destruct dn; [by constructor|].
  assert (Hec : ec = None) by (destruct ec; [by discriminate Hc|done]).
  assert (Hsg : sg = None) by (destruct sg; [by discriminate Hg|done]).
  subst ec sg.
  destruct code as [c|], (truthy signal) eqn:Ht; simpl;
    unfold emit, EventEmitter.emit; unfold_listeners; rewrite Hl3;
    destruct (pendingb sp h) eqn:Ha, (pendingb ep h) eqn:Hb; simpl;
    unfold_listeners; repeat case_match; inv_close Ha Hb.
Qed.

Lemma kill_Inv signal s : Inv s → Inv (kill signal s).
Proof. intros []. by constructor. Qed.

Lemma step_Inv st s : Inv s → Inv (step st s).
Proof.
  destruct st as [[]|]; simpl;
    auto using onSpawn_Inv, onError_Inv, onCloseOrExit_Inv, kill_Inv.
Qed.

Lemma reachable_Inv s : reachable s → Inv s.
Proof. induction 1; auto using new_Inv, step_Inv. Qed.

(** *** What the handlers do to the fields and to the exit promise *)

Lemma emit_this event a s :
  ∃ ee, this (emit event a s) = set_eventEmitter ee (this s).
Proof. apply emit_frame. Qed.

Lemma onCloseOrExit_done code signal s :
  _done (this (onCloseOrExit code signal s)) = true.
Proof.
  unfold onCloseOrExit. destruct (_done (this s)) eqn:Hd; [done|].
  match goal with |- context [emit ?e ?a ?x] =>
    destruct (emit_this e a x) as [ee ->] end.
  by destruct code, (truthy signal).
Qed.

Lemma onCloseOrExit_again code signal code' signal' s :
  onCloseOrExit code' signal' (onCloseOrExit code signal s) =
  onCloseOrExit code signal s.
Proof.
  unfold onCloseOrExit at 1. by rewrite onCloseOrExit_done.
Qed.

Lemma onCloseOrExit_fields code signal s :
  _done (this s) = false →
  let s' := onCloseOrExit code signal s in
  _exitCode (this s') = from_option Some (_exitCode (this s)) code ∧
  _signal (this s') = (if truthy signal then signal else _signal (this s)) ∧
  _spawned (this s') = _spawned (this s) ∧
  _childProcess (this s') = _childProcess (this s) ∧
  spawnPromise (this s') = spawnPromise (this s) ∧
  exitPromise (this s') = exitPromise (this s).
Proof.
  intros Hd. unfold onCloseOrExit. rewrite Hd.
  match goal with |- context [emit ?e ?a ?x] =>
    destruct (emit_this e a x) as [ee Hee] end.
  simpl. rewrite Hee. by destruct code, (truthy signal).
Qed.

Lemma onCloseOrExit_decides code signal s :
  Inv s → _done (this s) = false →
  promises s !! exitPromise (this s) = Some Promise.Pending →
  promises (onCloseOrExit code signal s) !! exitPromise (this s) =
  Some (exit_decision code signal).
Proof.
  intros HI Hd Hp. revert HI Hd Hp. inv_start. intros Hdn Hp. subst dn.
  apply pendingb_true in Hp. rewrite Hp in *.
  unfold onCloseOrExit; simpl.
  destruct code as [c|], (truthy signal) eqn:Ht; simpl;
    unfold emit, EventEmitter.emit; unfold_listeners; rewrite Hl3; simpl;
    unfold_listeners; apply pendingb_true in Hp;
    destruct signal as [g|]; simpl; try done;
    repeat case_match; by apply Promise_settle_pending.
Qed.

Lemma step_ids st s :
  spawnPromise (this (step st s)) = spawnPromise (this s) ∧
  exitPromise (this (step st s)) = exitPromise (this s).
Proof.
  assert (Hce : ∀ c g,
    spawnPromise (this (onCloseOrExit c g s)) = spawnPromise (this s) ∧
    exitPromise (this (onCloseOrExit c g s)) = exitPromise (this s)).
  { intros c g. destruct (_done (this s)) eqn:Hd.
    - unfold onCloseOrExit. by rewrite Hd.
    - by destruct (onCloseOrExit_fields c g s Hd) as (_ & _ & _ & _ & ? & ?). }
  destruct st as [[]|]; simpl; auto.
  - unfold onSpawn.
    match goal with |- context [emit ?e ?a ?x] =>
      destruct (emit_this e a x) as [ee ->] end. done.
  - unfold onError.
    match goal with |- context [emit ?e ?a ?x] =>
      destruct (emit_this e a x) as [ee ->] end. done.
Qed.

Lemma run_ids sts s :
  spawnPromise (this (run sts s)) = spawnPromise (this s) ∧
  exitPromise (this (run sts s)) = exitPromise (this s).
Proof.
  revert s. induction sts as [|st sts IH]; intros s; simpl; [done|].
  destruct (IH (step st s)) as [-> ->]. apply step_ids.
Qed.

Lemma run_reachable sts s : reachable s → reachable (run sts s).
Proof.
  revert s. induction sts as [|st sts IH]; intros s Hs; simpl; [done|].
  apply IH. by constructor.
Qed.

(** [_spawned] is written by [onSpawn] only. *)
Lemma step_keeps_spawned_flag st s :
  st ≠ Notify NSpawn → _spawned (this (step st s)) = _spawned (this s).
Proof.
  intros Hst. destruct st as [[| e | c g | c g]|sg]; simpl; try done.
  - unfold onError.
    match goal with |- context [emit ?e ?a ?x] =>
      destruct (emit_this e a x) as [ee ->] end. done.
  - destruct (_done (this s)) eqn:Hd.
    + unfold onCloseOrExit. by rewrite Hd.
    + by destruct (onCloseOrExit_fields c g s Hd) as (_ & _ & ? & _).
  - destruct (_done (this s)) eqn:Hd.
    + unfold onCloseOrExit. by rewrite Hd.
    + by destruct (onCloseOrExit_fields c g s Hd) as (_ & _ & ? & _).
Qed.

Lemma run_keeps_spawned_flag sts s :
  Notify NSpawn ∉ sts → _spawned (this (run sts s)) = _spawned (this s).
Proof.
  revert s. induction sts as [|st sts IH]; intros s Hnot; simpl; [done|].
  apply not_elem_of_cons in Hnot as [Hst Hnot].
  rewrite IH by done. apply step_keeps_spawned_flag. congruence.
Qed.

End TrackerFacts.

(** ** Claims about the tracker *)

Section TrackerClaims.
Import Spawned SpawnedInv.

Lemma pending_not_done (s : State) :
  Inv s → observe (waitForExit (this s)) s = Some Promise.Pending →
  _done (this s) = false.
Proof.
  intros HI Hp. destruct (_done (this s)) eqn:Hd; [|done].
  apply (inv_done s HI) in Hd. apply pendingb_false in Hd. by destruct Hd.
Qed.

(** C1: a termination notification that reaches the still undecided
    "has terminated" promise makes [waitForExit] resolve exactly when the
    signal is null and the code is 0; reject with [KilledWithSignalError]
    carrying the signal whenever the signal is non-null, whatever the code;
    reject with [ExitedWithExitCodeError] carrying the code when the signal
    is null and the code is non-zero; and reject with the
    "Both code and signal are null." error when both are null. *)
Theorem C1_waitForExit_outcome (s : State) (n : Notification)
    (code : option Z) (signal : option Signals) :
  reachable s →
  n = NClose code signal ∨ n = NExit code signal →
  observe (waitForExit (this s)) s = Some Promise.Pending →
  let s' := deliver n s in
  let result := observe (waitForExit (this s')) s' in
  (result = Some Promise.Fulfilled ↔ signal = None ∧ code = Some 0) ∧
  (∀ sg, signal = Some sg →
         result = Some (Promise.Rejected (KilledWithSignalError sg))) ∧
  (∀ c, signal = None → code = Some c → c ≠ 0 →
        result = Some (Promise.Rejected (ExitedWithExitCodeError c))) ∧
  (signal = None → code = None →
   result = Some (Promise.Rejected (PlainError "Both code and signal are null."))).
Proof.
  intros Hr Hn Hp s' result.
  pose proof (reachable_Inv s Hr) as HI.
  pose proof (pending_not_done s HI Hp) as Hd.
  assert (Hs' : s' = onCloseOrExit code signal s)
    by (subst s'; by destruct Hn as [-> | ->]).
  assert (Hres : result = Some (exit_decision code signal)).
  { subst result. unfold observe, waitForExit. rewrite Hs'.
    destruct (onCloseOrExit_fields code signal s Hd) as (_ & _ & _ & _ & _ & ->).
    by apply onCloseOrExit_decides. }
  rewrite Hres. clear Hres Hs'. unfold exit_decision.
  split_and!.
  - destruct signal as [g|], code as [c|]; simpl;
      try (split; [done|by intros []]).
    destruct (Z.eqb_spec c 0) as [->|Hc]; split; try done.
    intros [_ [=]]. done.
  - by intros sg ->.
  - intros c -> -> Hc. by destruct (Z.eqb_spec c 0).
  - by intros -> ->.
Qed.

Lemma C1_waitForExit_outcome_witness :
  let s := new (mkChildProcess None []) [] in
  observe (waitForExit (this s)) s = Some Promise.Pending ∧
  observe (waitForExit (this s)) (deliver (NExit (Some 2) None) s) =
    Some (Promise.Rejected (ExitedWithExitCodeError 2)).
Proof.
  split; [reflexivity|].
  pose proof (C1_waitForExit_outcome
                (new (mkChildProcess None []) [])
                (NExit (Some 2) None) (Some 2) None
                (reachable_new _ _) (or_intror eq_refl) eq_refl)
    as (_ & _ & H & _).
  apply (H 2); [reflexivity|reflexivity|discriminate].
Defined.

(** C2: when a tracker that has not terminated yet receives a closed and
    an exited notification (in either order), the first one sets
    [_done], records the code (when non-null) and the signal (when
    non-empty) and decides the "has terminated" promise; the second one
    leaves the whole tracker state, the promise heap included, unchanged. *)
Theorem C2_close_exit_deduplicated (s : State) (n1 n2 : Notification)
    (code code' : option Z) (signal signal' : option Signals) :
  reachable s →
  isDone (this s) = false →
  n1 = NClose code signal ∨ n1 = NExit code signal →
  n2 = NClose code' signal' ∨ n2 = NExit code' signal' →
  let s1 := deliver n1 s in
  isDone (this s1) = true ∧
  exitCode (this s1) = code ∧
  Spawned.signal (this s1) = (if truthy signal then signal else None) ∧
  hasSpawned (this s1) = hasSpawned (this s) ∧
  (∃ d, observe (waitForExit (this s1)) s1 = Some d ∧ d ≠ Promise.Pending ∧
        (observe (waitForExit (this s)) s = Some Promise.Pending →
         d = exit_decision code signal)) ∧
  deliver n2 s1 = s1.
Proof.
  intros Hr Hd Hn1 Hn2 s1.
  pose proof (reachable_Inv s Hr) as HI.
  assert (Hs1 : s1 = onCloseOrExit code signal s)
    by (subst s1; by destruct Hn1 as [-> | ->]).
  assert (Hn2' : deliver n2 s1 = onCloseOrExit code' signal' s1)
    by (by destruct Hn2 as [-> | ->]).
  unfold isDone in Hd.
  destruct (onCloseOrExit_fields code signal s Hd) as (Hc & Hg & Hsp & _ & _ & Hep).
  rewrite <- Hs1 in Hc, Hg, Hsp, Hep.
  assert (Hec : _exitCode (this s) = None).
  { destruct (_exitCode (this s)) eqn:E; [|done].
    rewrite (inv_code s HI) in Hd; [done|]. by rewrite E. }
  assert (Hsg : _signal (this s) = None).
  { destruct (_signal (this s)) eqn:E; [|done].
    rewrite (inv_signal s HI) in Hd; [done|]. by rewrite E. }
  split_and!.
  - rewrite Hs1. apply onCloseOrExit_done.
  - unfold exitCode. rewrite Hc, Hec. by destruct code.
  - unfold Spawned.signal. by rewrite Hg, Hsg.
  - done.
  - assert (HI1 : Inv s1)
      by (apply reachable_Inv; subst s1; by apply (reachable_step (Notify n1))).
    assert (Hd1 : _done (this s1) = true) by (rewrite Hs1; apply onCloseOrExit_done).
    pose proof (inv_done s1 HI1 Hd1) as Hnp. apply pendingb_false in Hnp.
    destruct (inv_ep s1 HI1) as [d Hd'].
    exists d. unfold observe, waitForExit. split_and!; [done|congruence|].
    intros Hp. rewrite Hep, Hs1 in Hd'.
    rewrite (onCloseOrExit_decides code signal s HI Hd Hp) in Hd'. congruence.
  - rewrite Hn2', Hs1. apply onCloseOrExit_again.
Qed.

Lemma C2_close_exit_deduplicated_witness :
  let s := step (Notify NSpawn) (new (mkChildProcess None []) []) in
  let s1 := deliver (NExit (Some 0) None) s in
  isDone (this s) = false ∧ isDone (this s1) = true ∧
  deliver (NClose (Some 0) None) s1 = s1.
Proof.
  pose proof (C2_close_exit_deduplicated
                (step (Notify NSpawn) (new (mkChildProcess None []) []))
                (NExit (Some 0) None) (NClose (Some 0) None)
                (Some 0) (Some 0) None None
                (reachable_step _ _ (reachable_new _ _)) eq_refl
                (or_intror eq_refl) (or_introl eq_refl))
    as (H1 & _ & _ & _ & _ & H2).
  split; [reflexivity|]. split; [exact H1|exact H2].
Defined.

(** On reachable states [_exitCode] is only set once the process is done,
    so [hasExitedSuccessfully] holds exactly for a terminated process with
    no recorded signal and exit code zero. *)
Lemma hasExitedSuccessfully_spec (s : State) :
  reachable s →
  hasExitedSuccessfully (this s) = true ↔
  isDone (this s) = true ∧ Spawned.signal (this s) = None ∧
  exitCode (this s) = Some 0.
Proof.
  intros Hr. pose proof (reachable_Inv s Hr) as HI.
  unfold hasExitedSuccessfully, wasKilled, isDone, Spawned.signal, exitCode.
  rewrite andb_true_iff, negb_true_iff, bool_decide_eq_true.
  split.
  - intros [Hk Hc]. split_and!; [|by destruct (_signal (this s))|done].
    apply (inv_code s HI). by rewrite Hc.
  - intros (_ & -> & ->). done.
Qed.

(** [hasExitedWithError] only tests that no signal was recorded and that
    [_exitCode] is not the number zero; [undefined] passes that test. *)
Lemma hasExitedWithError_spec (o : t) :
  hasExitedWithError o = true ↔ Spawned.signal o = None ∧ exitCode o ≠ Some 0.
Proof.
  unfold hasExitedWithError, wasKilled, Spawned.signal, exitCode.
  rewrite andb_true_iff, !negb_true_iff, bool_decide_eq_false.
  destruct (_signal o); intuition congruence.
Qed.

(** C3 (the code departs from the claim): on a freshly constructed
    tracker, before any notification, the process is not done and has no
    exit code, yet [hasExitedWithError] answers [true]. *)
Theorem C3_hasExitedWithError_before_termination :
  let s := new (mkChildProcess None []) [] in
  isDone (this s) = false ∧ exitCode (this s) = None ∧
  hasExitedSuccessfully (this s) = false ∧
  hasExitedWithError (this s) = true.
Proof. by split_and!. Qed.

Lemma new_pid_defined (cp : ChildProcess) (h : list Promise.t) :
  is_Some (pid cp) →
  observe (waitForSpawn (this (new cp h))) (new cp h) = Some Promise.Fulfilled ∧
  hasSpawned (this (new cp h)) = false.
Proof.
  intros [n Hn]. unfold new, createSpawnPromise, createExitPromise, Promise.alloc.
  rewrite Hn. simpl. unfold observe, waitForSpawn. simpl.
  split; [apply lookup_alloc_first|done].
Qed.

(** C6: a tracker built from a handle whose [pid] is already defined has
    its "has started" promise fulfilled right after construction, before
    any notification is delivered. *)
Theorem C6_waitForSpawn_resolved_when_pid_defined
    (cp : ChildProcess) (h : list Promise.t) :
  is_Some (pid cp) →
  let s := new cp h in
  observe (waitForSpawn (this s)) s = Some Promise.Fulfilled.
Proof. apply new_pid_defined. Qed.

Lemma C6_waitForSpawn_resolved_when_pid_defined_witness :
  let s := new (mkChildProcess (Some 4242%nat) []) [] in
  is_Some (pid (mkChildProcess (Some 4242%nat) [])) ∧
  observe (waitForSpawn (this s)) s = Some Promise.Fulfilled.
Proof.
  split; [by eexists|].
  apply (C6_waitForSpawn_resolved_when_pid_defined
           (mkChildProcess (Some 4242%nat) []) []).
  by eexists.
Defined.

(** C7: [waitForExit] hands out the one promise created by the
    constructor in every state; once that promise is settled no later
    notification or call changes its value, so early and late callers
    observe the same outcome; and as soon as the tracker is done the
    promise is settled, so a late caller does not wait forever. *)
Theorem C7_waitForExit_memoized (s : State) (later : list Step) :
  reachable s →
  let s' := run later s in
  waitForExit (this s') = waitForExit (this s) ∧
  (∀ d, observe (waitForExit (this s)) s = Some d → d ≠ Promise.Pending →
        observe (waitForExit (this s')) s' = Some d) ∧
  (isDone (this s) = true →
   ∃ d, observe (waitForExit (this s)) s = Some d ∧ d ≠ Promise.Pending).
Proof.
  intros Hr s'. pose proof (reachable_Inv s Hr) as HI.
  destruct (run_ids later s) as [_ Hid].
  unfold waitForExit, observe. split_and!.
  - done.
  - intros d Hd Hnp. subst s'. rewrite Hid. by eapply run_stable.
  - intros Hdone. pose proof (inv_done s HI Hdone) as Hnp.
    apply pendingb_false in Hnp. destruct (inv_ep s HI) as [d Hd].
    exists d. split; [done|congruence].
Qed.

Lemma C7_waitForExit_memoized_witness :
  let s := run [Notify NSpawn; Notify (NExit (Some 1) None)]
             (new (mkChildProcess None []) []) in
  let s' := run [Notify (NClose (Some 0) None); Notify (NError (PlainError "late"));
                 Kill None; Notify (NExit None (Some "SIGKILL"))] s in
  observe (waitForExit (this s)) s =
    Some (Promise.Rejected (ExitedWithExitCodeError 1)) ∧
  observe (waitForExit (this s')) s' =
    Some (Promise.Rejected (ExitedWithExitCodeError 1)).
Proof.
  split; [reflexivity|].
  pose proof (C7_waitForExit_memoized
                (run [Notify NSpawn; Notify (NExit (Some 1) None)]
                   (new (mkChildProcess None []) []))
                [Notify (NClose (Some 0) None); Notify (NError (PlainError "late"));
                 Kill None; Notify (NExit None (Some "SIGKILL"))]
                (run_reachable _ _ (reachable_new _ _)))
    as (_ & H & _).
  apply H; [reflexivity|discriminate].
Defined.

Lemma outcome_queries_exclusive (o : t) :
  (hasExitedSuccessfully o && hasExitedWithError o = false) ∧
  (wasKilled o = true →
   hasExitedSuccessfully o = false ∧ hasExitedWithError o = false).
Proof.
  unfold hasExitedSuccessfully, hasExitedWithError.
  destruct (wasKilled o), (bool_decide (_exitCode o = Some 0)); simpl; auto.
Qed.

(** C10: in every reachable tracker state [hasExitedSuccessfully] and
    [hasExitedWithError] are not both true, and when [wasKilled] is true
    both are false. *)
Theorem C10_outcome_queries_exclusive (s : State) :
  reachable s →
  ¬ (hasExitedSuccessfully (this s) = true ∧ hasExitedWithError (this s) = true) ∧
  (wasKilled (this s) = true →
   hasExitedSuccessfully (this s) = false ∧ hasExitedWithError (this s) = false).
Proof.
  intros _. destruct (outcome_queries_exclusive (this s)) as [H1 H2].
  split; [|done]. intros [Ha Hb]. rewrite Ha, Hb in H1. discriminate.
Qed.

Lemma C10_outcome_queries_exclusive_witness :
  let s := run [Notify NSpawn; Notify (NExit (Some 137) (Some "SIGKILL"))]
             (new (mkChildProcess None []) []) in
  wasKilled (this s) = true ∧
  hasExitedSuccessfully (this s) = false ∧ hasExitedWithError (this s) = false.
Proof.
  split; [reflexivity|].
  apply (C10_outcome_queries_exclusive
           (run [Notify NSpawn; Notify (NExit (Some 137) (Some "SIGKILL"))]
              (new (mkChildProcess None []) []))).
  - apply run_reachable, reachable_new.
  - reflexivity.
Defined.

End TrackerClaims.

(** ** Claims about the coordinator *)

Section CoordinatorClaims.
Import Spawnable.

Lemma with_spawned_command f sp w :
  command (this (with_spawned f sp w)) = command (this w).
Proof. done. Qed.

Lemma spawn_command w : command (this (snd (spawn w))) = command (this w).
Proof.
  unfold spawn. repeat case_match; simpl; try done.
Qed.

Lemma step_command st w : command (this (step st w)) = command (this w).
Proof.
  destruct st as [m|n]; simpl.
  - destruct m; simpl; try done.
    + pose proof (spawn_command w). by destruct (spawn w).
    + unfold kill. by destruct (spawned (this w)).
  - by destruct (spawned (this w)).
Qed.

Lemma spawn_spawned w : is_Some (spawned (this w)) → spawn w = (AsyncThrows AlreadySpawnedError, w).
Proof. intros [sp Hsp]. unfold spawn. by rewrite Hsp. Qed.

Lemma step_spawned st w :
  is_Some (spawned (this w)) → is_Some (spawned (this (step st w))).
Proof.
  intros Hsp. destruct st as [m|n]; simpl.
  - destruct m; simpl; try done.
    + by rewrite spawn_spawned.
    + unfold kill. destruct Hsp as [sp ->]. simpl. by eexists.
  - destruct Hsp as [sp ->]. simpl. by eexists.
Qed.

Lemma run_spawned sts w :
  is_Some (spawned (this w)) → is_Some (spawned (this (run sts w))).
Proof.
  revert w. induction sts as [|st sts IH]; intros w Hw; simpl; [done|].
  by apply IH, step_spawned.
Qed.

Lemma spawn_awaits w p w1 :
  spawn w = (AsyncAwaits p, w1) → is_Some (spawned (this w1)).
Proof.
  unfold spawn. repeat case_match; intros [= <- <-]; simpl.
  by eexists.
Qed.

Lemma spawn_empty w :
  spawned (this w) = None →
  command (this w) = [] ∨ head (command (this w)) = Some "" →
  spawn w = (AsyncThrows EmptyCommandError, w).
Proof.
  intros Hsp Hcmd. unfold spawn. rewrite Hsp.
  destruct (command (this w)) as [|first rest]; [done|].
  destruct Hcmd as [|[= ->]]; [done|]. by rewrite decide_True.
Qed.

Lemma step_unstarted_empty st w :
  spawned (this w) = None →
  command (this w) = [] ∨ head (command (this w)) = Some "" →
  step st w = w.
Proof.
  intros Hsp Hcmd. destruct st as [m|n]; simpl.
  - destruct m; simpl; try done.
    + by rewrite spawn_empty.
    + unfold kill. by rewrite Hsp.
  - by rewrite Hsp.
Qed.

Lemma reachable_empty_unstarted w :
  reachable w →
  command (this w) = [] ∨ head (command (this w)) = Some "" →
  spawned (this w) = None ∧ spawn_calls (child_process w) = [].
Proof.
  induction 1 as [cmd opts impl|st w Hr IH]; [done|].
  rewrite step_command. intros Hcmd. destruct (IH Hcmd) as [Hsp Hcalls].
  by rewrite step_unstarted_empty.
Qed.

Lemma coordinator_run_reachable sts w : reachable w → reachable (run sts w).
Proof.
  revert w. induction sts as [|st sts IH]; intros w Hw; simpl; [done|].
  apply IH. by constructor.
Qed.

(** C4: for a coordinator whose command is empty or starts with the empty
    string, [spawn()] fails with [EmptyCommandError], leaves the world as it
    was (no call to the creation primitive is recorded) and the coordinator
    is still unstarted. *)
Theorem C4_spawn_empty_command (w : World) :
  reachable w →
  command (this w) = [] ∨ head (command (this w)) = Some "" →
  spawn w = (AsyncThrows EmptyCommandError, w) ∧
  spawned (this (snd (spawn w))) = None ∧
  spawn_calls (child_process (snd (spawn w))) = [].
Proof.
  intros Hr Hcmd. destruct (reachable_empty_unstarted w Hr Hcmd) as [Hsp Hcalls].
  rewrite (spawn_empty w Hsp Hcmd). done.
Qed.

Lemma C4_spawn_empty_command_witness :
  let w := run [Invoke M_spawn; Invoke M_isDone; Notify NSpawn]
             (init [""; "-la"] None (fun _ => Returns (mkChildProcess None []))) in
  head (command (this w)) = Some "" ∧
  spawn w = (AsyncThrows EmptyCommandError, w) ∧
  spawn_calls (child_process (snd (spawn w))) = [].
Proof.
  split; [reflexivity|].
  pose proof (C4_spawn_empty_command
                (run [Invoke M_spawn; Invoke M_isDone; Notify NSpawn]
                   (init [""; "-la"] None
                      (fun _ => Returns (mkChildProcess None []))))
                (coordinator_run_reachable _ _ (reachable_init _ _ _))
                (or_intror eq_refl))
    as (H1 & _ & H2).
  split; [exact H1|exact H2].
Defined.

(** C5, as the code has it: once a call to [spawn()] has created the
    tracker and suspended on its "has started" promise, the tracker
    reference is already set, and a later call to [spawn()] fails with
    [AlreadySpawnedError] whatever happened in between (in particular
    whether or not the first promise has settled). *)
Theorem C5_second_spawn_already_spawned
    (w w1 : World) (p : nat) (between : list Step) :
  spawn w = (AsyncAwaits p, w1) →
  let w2 := run between w1 in
  is_Some (spawned (this w1)) ∧
  spawn w2 = (AsyncThrows AlreadySpawnedError, w2).
Proof.
  intros Hfirst w2. apply spawn_awaits in Hfirst.
  split; [done|]. by apply spawn_spawned, run_spawned.
Qed.

Lemma C5_second_spawn_already_spawned_witness :
  let w := init ["ls"; "-la"] None (fun _ => Returns (mkChildProcess None [])) in
  let w1 := snd (spawn w) in
  fst (spawn w) = AsyncAwaits 0 ∧
  outcome (fst (spawn w)) (promises w1) = Some Promise.Pending ∧
  spawn w1 = (AsyncThrows AlreadySpawnedError, w1) ∧
  spawn (run [Notify NSpawn] w1) =
    (AsyncThrows AlreadySpawnedError, run [Notify NSpawn] w1).
Proof.
  split; [reflexivity|]. split; [reflexivity|].
  split.
  - apply (C5_second_spawn_already_spawned
             (init ["ls"; "-la"] None (fun _ => Returns (mkChildProcess None [])))
             _ 0%nat [] eq_refl).
  - apply (C5_second_spawn_already_spawned
             (init ["ls"; "-la"] None (fun _ => Returns (mkChildProcess None [])))
             _ 0%nat [Notify NSpawn] eq_refl).
Defined.

(** C5 as stated does not hold: on a coordinator with an empty command the
    first [spawn()] fails validation without creating a tracker, and the
    second call fails with [EmptyCommandError] again, not with
    [AlreadySpawnedError]. *)
Lemma C5_second_spawn_counterexample :
  let w := init [] None (fun _ => Returns (mkChildProcess None [])) in
  let w1 := snd (spawn w) in
  fst (spawn w1) = AsyncThrows EmptyCommandError ∧
  fst (spawn w1) ≠ AsyncThrows AlreadySpawnedError.
Proof. split; [reflexivity|discriminate]. Qed.

(** C8: on an unstarted coordinator every query returns normally with
    [false] or [undefined] and leaves the world unchanged, while [kill]
    throws [NotYetSpawnedError] and [waitForSpawn] / [waitForExit] return a
    promise rejected with [NotYetSpawnedError]. *)
Theorem C8_unstarted_coordinator (w : World) (sg : option Signals) :
  spawned (this w) = None →
  invoke M_hasSpawned w = (Returns (VBoolean false), w) ∧
  invoke M_isDone w = (Returns (VBoolean false), w) ∧
  invoke M_wasKilled w = (Returns (VBoolean false), w) ∧
  invoke M_hasExitedSuccessfully w = (Returns (VBoolean false), w) ∧
  invoke M_hasExitedWithError w = (Returns (VBoolean false), w) ∧
  invoke M_signal w = (Returns VUndefined, w) ∧
  invoke M_exitCode w = (Returns VUndefined, w) ∧
  invoke M_childProcess w = (Returns VUndefined, w) ∧
  invoke (M_kill sg) w = (Throws NotYetSpawnedError, w) ∧
  invoke M_waitForSpawn w = (Returns (VPromise (AsyncThrows NotYetSpawnedError)), w) ∧
  outcome (waitForSpawn w) (promises w) = Some (Promise.Rejected NotYetSpawnedError) ∧
  invoke M_waitForExit w = (Returns (VPromise (AsyncThrows NotYetSpawnedError)), w) ∧
  outcome (waitForExit w) (promises w) = Some (Promise.Rejected NotYetSpawnedError).
Proof.
  intros Hsp. unfold invoke, kill, waitForSpawn, waitForExit, hasSpawned, isDone,
    wasKilled, hasExitedSuccessfully, hasExitedWithError, signal, exitCode,
    childProcess.
  rewrite Hsp. simpl. by split_and!.
Qed.

Lemma C8_unstarted_coordinator_witness :
  let w := init ["ls"] None (fun _ => Returns (mkChildProcess None [])) in
  spawned (this w) = None ∧
  invoke M_hasExitedWithError w = (Returns (VBoolean false), w) ∧
  invoke (M_kill (Some "SIGTERM")) w = (Throws NotYetSpawnedError, w).
Proof.
  split; [reflexivity|].
  pose proof (C8_unstarted_coordinator
                (init ["ls"] None (fun _ => Returns (mkChildProcess None [])))
                (Some "SIGTERM") eq_refl)
    as (_ & _ & _ & _ & H1 & _ & _ & _ & H2 & _).
  split; [exact H1|exact H2].
Defined.

(** C9: for a handle whose [pid] is already defined, the tracker's "has
    started" promise is fulfilled right after construction while
    [hasSpawned()] is [false]; both stay so over any later steps among which
    there is no started notification; and a coordinator whose creation
    primitive returns such a handle has its [spawn()] complete while its
    [hasSpawned()] is [false]. *)
Theorem C9_resolved_but_not_hasSpawned
    (cp : ChildProcess) (h : list Promise.t) :
  is_Some (pid cp) →
  let s := Spawned.new cp h in
  Spawned.observe (Spawned.waitForSpawn (Spawned.this s)) s = Some Promise.Fulfilled ∧
  Spawned.hasSpawned (Spawned.this s) = false ∧
  (∀ later, Spawned.Notify NSpawn ∉ later →
     let s' := Spawned.run later s in
     Spawned.observe (Spawned.waitForSpawn (Spawned.this s')) s' =
       Some Promise.Fulfilled ∧
     Spawned.hasSpawned (Spawned.this s') = false) ∧
  (∀ first rest options impl,
     first ≠ "" →
     impl (mkSpawnCall first rest options) = Returns cp →
     let r := spawn (init (first :: rest) options impl) in
     outcome (fst r) (promises (snd r)) = Some Promise.Fulfilled ∧
     hasSpawned (this (snd r)) = false).
Proof.
  intros Hpid s.
  destruct (new_pid_defined cp h Hpid) as [H1 H2].
  split_and!; [done|done| |].
  - intros later Hnot s'. split.
    + unfold Spawned.observe, Spawned.waitForSpawn. subst s'.
      destruct (run_ids later s) as [-> _].
      by eapply run_stable.
    + unfold Spawned.hasSpawned. subst s'. by rewrite run_keeps_spawned_flag.
  - intros first rest options impl Hne Himpl r. subst r.
    unfold spawn, init, node_spawn. simpl.
    rewrite decide_False by done. rewrite Himpl. simpl.
    apply (new_pid_defined cp [] Hpid).
Qed.

Lemma C9_resolved_but_not_hasSpawned_witness :
  let cp := mkChildProcess (Some 7%nat) [] in
  let r := spawn (init ["sleep"; "1"] None (fun _ => Returns cp)) in
  is_Some (pid cp) ∧
  outcome (fst r) (promises (snd r)) = Some Promise.Fulfilled ∧
  hasSpawned (this (snd r)) = false.
Proof.
  split; [by eexists|].
  pose proof (C9_resolved_but_not_hasSpawned (mkChildProcess (Some 7%nat) []) []
                (ex_intro _ 7%nat eq_refl)) as (_ & _ & _ & H).
  apply (H "sleep" ["1"] None (fun _ => Returns (mkChildProcess (Some 7%nat) []))).
  - discriminate.
  - reflexivity.
Defined.

(** *** Scenarios *)

Example scenario_true :
  let w := run [Invoke M_spawn; Notify NSpawn;
                Notify (NExit (Some 0) None); Notify (NClose (Some 0) None)]
             (init ["true"] None (fun _ => Returns (mkChildProcess None []))) in
  hasSpawned (this w) = true ∧ isDone (this w) = true ∧
  hasExitedSuccessfully (this w) = true ∧ hasExitedWithError (this w) = false ∧
  wasKilled (this w) = false ∧ exitCode (this w) = Some 0 ∧
  outcome (waitForExit w) (promises w) = Some Promise.Fulfilled.
Proof. by split_and!. Qed.

Example scenario_false :
  let w := run [Invoke M_spawn; Notify NSpawn;
                Notify (NExit (Some 1) None); Notify (NClose (Some 1) None)]
             (init ["false"] None (fun _ => Returns (mkChildProcess None []))) in
  exitCode (this w) = Some 1 ∧ signal (this w) = None ∧
  outcome (waitForExit w) (promises w) =
    Some (Promise.Rejected (ExitedWithExitCodeError 1)).
Proof. by split_and!. Qed.

Example scenario_kill :
  let w := run [Invoke M_spawn; Notify NSpawn; Invoke (M_kill (Some "SIGKILL"));
                Notify (NExit None (Some "SIGKILL")); Notify (NClose None (Some "SIGKILL"))]
             (init ["sleep"; "10"] None (fun _ => Returns (mkChildProcess None []))) in
  wasKilled (this w) = true ∧ exitCode (this w) = None ∧
  (signalsSent <$> childProcess (this w)) = Some ["SIGKILL"] ∧
  outcome (waitForExit w) (promises w) =
    Some (Promise.Rejected (KilledWithSignalError "SIGKILL")).
Proof. by split_and!. Qed.

Example scenario_creation_error :
  let w := run [Invoke M_spawn; Notify (NError (PlainError "spawn nope ENOENT"));
                Notify (NClose (Some (-2)) None)]
             (init ["nope"] None (fun _ => Returns (mkChildProcess None []))) in
  hasSpawned (this w) = false ∧
  outcome (waitForSpawn w) (promises w) =
    Some (Promise.Rejected (PlainError "spawn nope ENOENT")) ∧
  outcome (waitForExit w) (promises w) =
    Some (Promise.Rejected (PlainError "spawn nope ENOENT")).
Proof. by split_and!. Qed.

Example scenario_empty_command :
  let w := init [] None (fun _ => Returns (mkChildProcess None [])) in
  spawn w = (AsyncThrows EmptyCommandError, w).
Proof. reflexivity. Qed.

End CoordinatorClaims.


(** * Further properties of the tracker *)

Section TrackerHandlers.
Import Spawned SpawnedInv.
Implicit Types (s : State).

Ltac inv_open :=
  let Hsh := fresh "Hsh" in
  intros [Hne Hsp Hep Hsh Hd Hs Hc Hg];
  match goal with s : State |- _ =>
    destruct s as [[cp sd dn ec sg sp ep ee] h] end;
  simpl in *;
  pose proof Hsh as (Hl1 & Hl2 & Hl3).

Ltac unfold_closures :=
  unfold exit_onExit, upd_promises, upd_this, spawn_cleanup, exit_cleanup,
    set_ee, get_ee, Promise.resolve, Promise.reject in *; simpl in *.

Ltac settle_noop :=
  repeat match goal with
  | |- context [Promise.settle ?p ?v ?h] =>
      rewrite (Promise_settle_not_pending p v h)
        by (rewrite ?Promise_settle_ne by done; by apply pendingb_false)
  end.

(** [onSpawn] resolves the "has started" promise and nothing else. *)
Lemma onSpawn_promises s :
  Inv s →
  promises (onSpawn s) = Promise.resolve (spawnPromise (this s)) (promises s).
Proof.
  inv_open.
  unfold onSpawn, emit, EventEmitter.emit; unfold_closures. rewrite Hl1.
  destruct (pendingb sp h) eqn:Ha; simpl; unfold_closures; [done|].
  by settle_noop.
Qed.

(** [onError] rejects both promises with the error (a settled one ignores
    it). *)
Lemma onError_promises e s :
  Inv s →
  promises (onError e s) =
  Promise.reject (exitPromise (this s)) e
    (Promise.reject (spawnPromise (this s)) e (promises s)).
Proof.
  inv_open.
  unfold onError, emit, EventEmitter.emit; unfold_closures. rewrite Hl2.
  destruct (pendingb sp h) eqn:Ha, (pendingb ep h) eqn:Hb; simpl;
    unfold_closures; try done.
  - by settle_noop.
  - rewrite (Promise_settle_not_pending sp) by (by apply pendingb_false). done.
  - by settle_noop.
Qed.

(** The first [onCloseOrExit] settles the "has terminated" promise with the
    decision of [onExit] (a promise already rejected by an error keeps its
    value). *)
Lemma onCloseOrExit_promises code signal s :
  Inv s → _done (this s) = false →
  promises (onCloseOrExit code signal s) =
  Promise.settle (exitPromise (this s)) (exit_decision code signal) (promises s).
Proof.
  intros HI Hdn. revert HI Hdn. inv_open. intros ->.
  unfold onCloseOrExit; simpl.
  destruct code as [c|], (truthy signal) eqn:Ht; simpl;
    unfold emit, EventEmitter.emit; unfold_closures; rewrite Hl3;
    destruct (pendingb ep h) eqn:Hb; simpl; unfold_closures;
    unfold exit_decision; destruct signal as [g|]; simpl in *; try done;
    repeat case_match; try done; by settle_noop.
Qed.

Lemma onSpawn_this s :
  ∃ ee, this (onSpawn s) = set_eventEmitter ee (set_spawned true (this s)).
Proof.
  unfold onSpawn.
  match goal with |- context [emit ?e ?a ?x] =>
    destruct (emit_this e a x) as [ee ->] end.
  by exists ee.
Qed.

Lemma onError_this e s : ∃ ee, this (onError e s) = set_eventEmitter ee (this s).
Proof. apply emit_this. Qed.

End TrackerHandlers.

Section TrackerExtras.
Import Spawned SpawnedInv.
Implicit Types (s : State).

Lemma lookup_settle_same p v (h : list Promise.t) :
  Promise.settle p v h !! p =
  match h !! p with Some Promise.Pending => Some v | o => o end.
Proof.
  destruct (h !! p) as [[]|] eqn:Hp.
  - by apply Promise_settle_pending.
  - rewrite Promise_settle_not_pending; [done|]. by rewrite Hp.
  - rewrite Promise_settle_not_pending; [done|]. by rewrite Hp.
  - rewrite Promise_settle_not_pending; [done|]. by rewrite Hp.
Qed.

(** X1: a started notification sets the started flag, fulfils the "has started"
    promise if it was still pending, and leaves the "has terminated" promise
    and the termination record alone. *)
Theorem spawn_notification_effect s :
  reachable s →
  let s' := deliver NSpawn s in
  hasSpawned (this s') = true ∧
  (observe (waitForSpawn (this s)) s = Some Promise.Pending →
   observe (waitForSpawn (this s')) s' = Some Promise.Fulfilled) ∧
  observe (waitForExit (this s')) s' = observe (waitForExit (this s)) s ∧
  isDone (this s') = isDone (this s) ∧
  exitCode (this s') = exitCode (this s) ∧
  Spawned.signal (this s') = Spawned.signal (this s).
Proof.
  intros Hr s'. pose proof (reachable_Inv s Hr) as HI. subst s'. simpl.
  destruct (onSpawn_this s) as [ee Hthis].
  unfold hasSpawned, isDone, exitCode, Spawned.signal, observe, waitForSpawn,
    waitForExit.
  rewrite Hthis, (onSpawn_promises s HI). simpl. unfold Promise.resolve.
  split_and!; try done.
  - intros Hp. by apply Promise_settle_pending.
  - apply Promise_settle_ne, (inv_ne s HI).
Qed.

Lemma spawn_notification_effect_witness :
  let s := new (mkChildProcess None []) [] in
  let s' := deliver NSpawn s in
  observe (waitForSpawn (this s)) s = Some Promise.Pending ∧
  hasSpawned (this s') = true ∧
  observe (waitForSpawn (this s')) s' = Some Promise.Fulfilled.
Proof.
  split; [reflexivity|].
  pose proof (spawn_notification_effect (new (mkChildProcess None []) [])
                (reachable_new _ _)) as (H1 & H2 & _).
  split; [exact H1|exact (H2 eq_refl)].
Defined.

(** X2: an error notification rejects, with the error it carries, each of the
    two promises that is still pending; a settled promise keeps its value and
    no flag or termination record changes. *)
Theorem error_notification_effect s (e : Error) :
  reachable s →
  let s' := deliver (NError e) s in
  (∀ p, p = waitForSpawn (this s) ∨ p = waitForExit (this s) →
        observe p s' =
        match observe p s with
        | Some Promise.Pending => Some (Promise.Rejected e)
        | o => o
        end) ∧
  waitForSpawn (this s') = waitForSpawn (this s) ∧
  waitForExit (this s') = waitForExit (this s) ∧
  hasSpawned (this s') = hasSpawned (this s) ∧
  isDone (this s') = isDone (this s) ∧
  exitCode (this s') = exitCode (this s) ∧
  Spawned.signal (this s') = Spawned.signal (this s).
Proof.
  intros Hr s'. pose proof (reachable_Inv s Hr) as HI. subst s'. simpl.
  destruct (onError_this e s) as [ee Hthis].
  unfold hasSpawned, isDone, exitCode, Spawned.signal, observe, waitForSpawn,
    waitForExit.
  rewrite Hthis, (onError_promises e s HI). simpl. unfold Promise.reject.
  split_and!; try done.
  pose proof (inv_ne s HI) as Hne.
  intros p [-> | ->].
  - rewrite Promise_settle_ne by done. apply lookup_settle_same.
  - rewrite lookup_settle_same. by rewrite Promise_settle_ne.
Qed.

Lemma error_notification_effect_witness :
  let s := new (mkChildProcess None []) [] in
  let s' := deliver (NError (PlainError "spawn ENOENT")) s in
  observe (waitForSpawn (this s)) s = Some Promise.Pending ∧
  observe (waitForSpawn (this s)) s' = Some (Promise.Rejected (PlainError "spawn ENOENT")) ∧
  observe (waitForExit (this s)) s' = Some (Promise.Rejected (PlainError "spawn ENOENT")).
Proof.
  split; [reflexivity|].
  pose proof (error_notification_effect (new (mkChildProcess None []) [])
                (PlainError "spawn ENOENT") (reachable_new _ _)) as (H & _).
  split.
  - apply (H (waitForSpawn (this (new (mkChildProcess None []) [])))). by left.
  - apply (H (waitForExit (this (new (mkChildProcess None []) [])))). by right.
Defined.

(** X3: [waitForSpawn] hands out the one promise created by the constructor in
    every state; once settled it keeps its value over any later
    notifications and calls; and it is settled as soon as the started flag is
    set. *)
Theorem waitForSpawn_memoized s (later : list Step) :
  reachable s →
  let s' := run later s in
  waitForSpawn (this s') = waitForSpawn (this s) ∧
  (∀ d, observe (waitForSpawn (this s)) s = Some d → d ≠ Promise.Pending →
        observe (waitForSpawn (this s')) s' = Some d) ∧
  (hasSpawned (this s) = true →
   ∃ d, observe (waitForSpawn (this s)) s = Some d ∧ d ≠ Promise.Pending).
Proof.
  intros Hr s'. pose proof (reachable_Inv s Hr) as HI.
  destruct (run_ids later s) as [Hid _].
  unfold waitForSpawn, observe. split_and!.
  - done.
  - intros d Hd Hnp. subst s'. rewrite Hid. by eapply run_stable.
  - intros Hsp. pose proof (inv_spawned s HI Hsp) as Hnp.
    apply pendingb_false in Hnp. destruct (inv_sp s HI) as [d Hd].
    exists d. split; [done|congruence].
Qed.

Lemma waitForSpawn_memoized_witness :
  let s := run [Notify (NError (PlainError "EACCES"))]
             (new (mkChildProcess None []) []) in
  let s' := run [Notify NSpawn; Kill None; Notify (NExit (Some 0) None)] s in
  observe (waitForSpawn (this s)) s = Some (Promise.Rejected (PlainError "EACCES")) ∧
  observe (waitForSpawn (this s')) s' = Some (Promise.Rejected (PlainError "EACCES")).
Proof.
  split; [reflexivity|].
  pose proof (waitForSpawn_memoized
                (run [Notify (NError (PlainError "EACCES"))]
                   (new (mkChildProcess None []) []))
                [Notify NSpawn; Kill None; Notify (NExit (Some 0) None)]
                (run_reachable _ _ (reachable_new _ _)))
    as (_ & H & _).
  apply H; [reflexivity|discriminate].
Defined.

(** *** Listeners *)

Lemma removeListener_no_new_key
    (event : string) (f : Listener) (o : bool)
    (ee : gmap string (list (EventEmitter.Registration Listener))) (k : string) :
  ee !! k = None → EventEmitter.removeListener event f o ee !! k = None.
Proof.
  intros Hk. destruct (decide (k = event)) as [->|Hne].
  - unfold EventEmitter.removeListener. by rewrite Hk.
  - by rewrite lookup_removeListener_ne.
Qed.

Lemma call_no_new_key l a s (k : string) :
  eventEmitter (this s) !! k = None → eventEmitter (this (call l a s)) !! k = None.
Proof.
  intros Hk. destruct l, a; simpl; try done;
    unfold exit_onExit; repeat case_match; simpl;
    by do 2 apply removeListener_no_new_key.
Qed.

Lemma emit_each_no_new_key event a ls s (k : string) :
  eventEmitter (this s) !! k = None →
  eventEmitter (this (EventEmitter.emit_each get_ee set_ee call event a ls s)) !! k
  = None.
Proof.
  revert s. induction ls as [|r ls IH]; intros s Hk; simpl; [done|].
  apply IH, call_no_new_key.
  destruct (EventEmitter.once_flag r); [|done].
  simpl. by apply removeListener_no_new_key.
Qed.

Lemma emit_no_new_key event a s (k : string) :
  eventEmitter (this s) !! k = None → eventEmitter (this (emit event a s)) !! k = None.
Proof.
  intros Hk. unfold emit, EventEmitter.emit. destruct (get_ee s !! event); [|done].
  by apply emit_each_no_new_key.
Qed.

Lemma step_no_new_key st s (k : string) :
  eventEmitter (this s) !! k = None → eventEmitter (this (step st s)) !! k = None.
Proof.
  intros Hk.
  assert (Hce : ∀ c g, eventEmitter (this (onCloseOrExit c g s)) !! k = None).
  { intros c g. unfold onCloseOrExit. destruct (_done (this s)); [done|].
    apply emit_no_new_key. by destruct c, (truthy g). }
  destruct st as [[]|]; simpl; try done.
  - by apply emit_no_new_key.
  - by apply emit_no_new_key.
Qed.

Lemma reachable_event_names s (k : string) :
  reachable s → k ≠ "spawn" → k ≠ "error" → k ≠ "exit" →
  eventEmitter (this s) !! k = None.
Proof.
  intros Hr H1 H2 H3. induction Hr as [cp h|st s Hr IH].
  - unfold new, createSpawnPromise, createExitPromise, Promise.alloc,
      EventEmitter.once, EventEmitter.addListener.
    destruct (pid cp); simpl; by simplify_map_eq.
  - by apply step_no_new_key.
Qed.

(** X4: the listeners registered on the internal emitter are exactly those of
    the promises that are still pending: the ["spawn"] listener while the
    "has started" promise is pending, the ["exit"] listener while the "has
    terminated" promise is pending, an ["error"] listener while either is; once
    both promises are settled no listener is left at all. *)
Theorem listeners_follow_pending s :
  reachable s →
  let ee := eventEmitter (this s) in
  let spawn_pending := observe (waitForSpawn (this s)) s = Some Promise.Pending in
  let exit_pending := observe (waitForExit (this s)) s = Some Promise.Pending in
  (is_Some (ee !! "spawn") ↔ spawn_pending) ∧
  (is_Some (ee !! "exit") ↔ exit_pending) ∧
  (is_Some (ee !! "error") ↔ spawn_pending ∨ exit_pending) ∧
  (¬ spawn_pending → ¬ exit_pending → ee = ∅).
Proof.
  intros Hr ee spawn_pending exit_pending.
  pose proof (reachable_Inv s Hr) as HI.
  destruct (inv_shape s HI) as (H1 & H2 & H3).
  assert (Ha : pendingb (spawnPromise (this s)) (promises s) = true ↔ spawn_pending)
    by apply pendingb_true.
  assert (Hb : pendingb (exitPromise (this s)) (promises s) = true ↔ exit_pending)
    by apply pendingb_true.
  subst ee. rewrite !is_Some_alt, H1, H2, H3, <- Ha, <- Hb.
  split_and!.
  - destruct (pendingb (spawnPromise (this s)) (promises s)); simpl; intuition congruence.
  - destruct (pendingb (exitPromise (this s)) (promises s)); simpl; intuition congruence.
  - destruct (pendingb (spawnPromise (this s)) (promises s)),
             (pendingb (exitPromise (this s)) (promises s)); simpl; intuition congruence.
  - intros Hns Hne. apply map_eq. intros k. rewrite lookup_empty.
    destruct (decide (k = "spawn")) as [->|?];
      [rewrite H1; by destruct (pendingb (spawnPromise (this s)) (promises s))|].
    destruct (decide (k = "exit")) as [->|?];
      [rewrite H3; by destruct (pendingb (exitPromise (this s)) (promises s))|].
    destruct (decide (k = "error")) as [->|?];
      [rewrite H2;
       by destruct (pendingb (spawnPromise (this s)) (promises s)),
                   (pendingb (exitPromise (this s)) (promises s))|].
    by apply reachable_event_names.
Qed.

Lemma listeners_follow_pending_witness :
  let s := run [Notify NSpawn; Notify (NExit None (Some "SIGTERM"))]
             (new (mkChildProcess None []) []) in
  eventEmitter (this s) = ∅.
Proof.
  pose proof (listeners_follow_pending
                (run [Notify NSpawn; Notify (NExit None (Some "SIGTERM"))]
                   (new (mkChildProcess None []) []))
                (run_reachable _ _ (reachable_new _ _))) as (_ & _ & _ & H).
  apply H; discriminate.
Defined.

(** *** Flags, records and promises over whole executions *)

Lemma step_spawned_flag st s :
  _spawned (this (step st s)) = true ↔
  _spawned (this s) = true ∨ st = Notify NSpawn.
Proof.
  destruct st as [[| e | c g | c g]|sg];
    try (rewrite step_keeps_spawned_flag by done; by intuition).
  simpl. destruct (onSpawn_this s) as [ee ->]. simpl. by intuition.
Qed.

Lemma step_done_flag st s :
  _done (this (step st s)) = true ↔
  _done (this s) = true ∨ is_termination st = true.
Proof.
  destruct st as [[| e | c g | c g]|sg]; simpl.
  - destruct (onSpawn_this s) as [ee ->]. simpl. by intuition.
  - destruct (onError_this e s) as [ee ->]. simpl. by intuition.
  - rewrite onCloseOrExit_done. by intuition.
  - rewrite onCloseOrExit_done. by intuition.
  - by intuition.
Qed.

(** X6: the started flag is set exactly when a started notification has been
    delivered since construction, and the done flag exactly when a closed or
    exited notification has. *)
Theorem flags_reflect_history (cp : ChildProcess) (h : list Promise.t)
    (sts : list Step) :
  let s := run sts (new cp h) in
  (hasSpawned (this s) = true ↔ Notify NSpawn ∈ sts) ∧
  (isDone (this s) = true ↔ ∃ st, st ∈ sts ∧ is_termination st = true).
Proof.
  assert (Hsp : ∀ sts s0, _spawned (this (run sts s0)) = true ↔
                          _spawned (this s0) = true ∨ Notify NSpawn ∈ sts).
  { clear sts. induction sts as [|st sts IH]; intros s0; simpl.
    - rewrite elem_of_nil. by intuition.
    - rewrite IH, step_spawned_flag, elem_of_cons. by intuition. }
  assert (Hdn : ∀ sts s0, _done (this (run sts s0)) = true ↔
                          _done (this s0) = true ∨
                          ∃ st, st ∈ sts ∧ is_termination st = true).
  { clear sts Hsp. induction sts as [|st sts IH]; intros s0; simpl.
    - split; [by left|]. intros [?|(st & Hin & _)]; [done|].
      by apply elem_of_nil in Hin.
    - rewrite IH, step_done_flag. split.
      + intros [[?|?]|(st' & Hin & Ht)]; [by left| |].
        * right. exists st. split; [by left|done].
        * right. exists st'. split; [by right|done].
      + intros [?|(st' & Hin & Ht)]; [by left; left|].
        apply elem_of_cons in Hin as [->|Hin]; [by left; right|].
        right. by exists st'. }
  intros s. unfold hasSpawned, isDone. subst s. rewrite Hsp, Hdn.
  assert (H0 : _spawned (this (new cp h)) = false ∧ _done (this (new cp h)) = false).
  { unfold new, createSpawnPromise, createExitPromise, Promise.alloc.
    by destruct (pid cp). }
  destruct H0 as [-> ->]. split; split; try (by right); by intros [?|?].
Qed.

Lemma step_frozen st s :
  _done (this s) = true →
  _done (this (step st s)) = true ∧
  _exitCode (this (step st s)) = _exitCode (this s) ∧
  _signal (this (step st s)) = _signal (this s).
Proof.
  intros Hd. destruct st as [[| e | c g | c g]|sg]; simpl.
  - by destruct (onSpawn_this s) as [ee ->].
  - by destruct (onError_this e s) as [ee ->].
  - unfold onCloseOrExit. by rewrite Hd.
  - unfold onCloseOrExit. by rewrite Hd.
  - done.
Qed.

(** X7: once the tracker is done, the done flag, the exit code and the signal
    never change again, whatever is delivered or called afterwards. *)
Theorem termination_record_frozen s (later : list Step) :
  isDone (this s) = true →
  let s' := run later s in
  isDone (this s') = true ∧
  exitCode (this s') = exitCode (this s) ∧
  Spawned.signal (this s') = Spawned.signal (this s).
Proof.
  unfold isDone, exitCode, Spawned.signal. revert s.
  induction later as [|st later IH]; intros s Hd; simpl; [done|].
  destruct (step_frozen st s Hd) as (Hd' & <- & <-). by apply IH.
Qed.

Lemma termination_record_frozen_witness :
  let s := run [Notify (NExit (Some 3) None)] (new (mkChildProcess None []) []) in
  let s' := run [Notify (NClose None (Some "SIGKILL")); Notify NSpawn;
                 Notify (NExit (Some 0) None)] s in
  isDone (this s) = true ∧
  exitCode (this s') = Some 3 ∧ Spawned.signal (this s') = None.
Proof.
  split; [reflexivity|].
  pose proof (termination_record_frozen
                (run [Notify (NExit (Some 3) None)] (new (mkChildProcess None []) []))
                [Notify (NClose None (Some "SIGKILL")); Notify NSpawn;
                 Notify (NExit (Some 0) None)] eq_refl) as (_ & H1 & H2).
  split; [exact H1|exact H2].
Defined.

Lemma step_childProcess st s :
  _childProcess (this (step st s)) =
  match st with
  | Kill sg => ChildProcess_kill (default "SIGINT" sg) (_childProcess (this s))
  | Notify _ => _childProcess (this s)
  end.
Proof.
  destruct st as [[| e | c g | c g]|sg]; simpl; try done.
  - by destruct (onSpawn_this s) as [ee ->].
  - by destruct (onError_this e s) as [ee ->].
  - destruct (_done (this s)) eqn:Hd.
    + unfold onCloseOrExit. by rewrite Hd.
    + by destruct (onCloseOrExit_fields c g s Hd) as (_ & _ & _ & ? & _).
  - destruct (_done (this s)) eqn:Hd.
    + unfold onCloseOrExit. by rewrite Hd.
    + by destruct (onCloseOrExit_fields c g s Hd) as (_ & _ & _ & ? & _).
Qed.

(** X8: the handle receives exactly the signals asked for through [kill], in
    the order of the calls and with ["SIGINT"] where none was named; no
    notification handler sends a signal or touches the handle, and [kill]
    goes through even when the tracker is already done. *)
Theorem kill_reaches_handle s (sts : list Step) :
  let s' := run sts s in
  pid (childProcess (this s')) = pid (childProcess (this s)) ∧
  signalsSent (childProcess (this s')) =
    signalsSent (childProcess (this s)) ++ kill_signals sts.
Proof.
  unfold childProcess. revert s.
  induction sts as [|st sts IH]; intros s; simpl.
  - by rewrite app_nil_r.
  - destruct (IH (step st s)) as [-> ->]. rewrite step_childProcess.
    destruct st as [n|sg]; simpl; [done|].
    split; [done|]. by rewrite <- app_assoc.
Qed.

(** *** What a fulfilled promise tells about the queries *)

Lemma exit_decision_fulfilled code signal :
  exit_decision code signal = Promise.Fulfilled → code = Some 0 ∧ signal = None.
Proof.
  unfold exit_decision. destruct signal, code as [c|]; try done.
  destruct (Z.eqb_spec c 0) as [->|]; done.
Qed.

Lemma closeOrExit_fulfilled code signal s :
  Inv s →
  (promises s !! exitPromise (this s) = Some Promise.Fulfilled →
   _done (this s) = true ∧ _exitCode (this s) = Some 0 ∧ _signal (this s) = None) →
  let s' := onCloseOrExit code signal s in
  promises s' !! exitPromise (this s') = Some Promise.Fulfilled →
  _done (this s') = true ∧ _exitCode (this s') = Some 0 ∧ _signal (this s') = None.
Proof.
  intros HI IH s'. subst s'. destruct (_done (this s)) eqn:Hd.
  { assert (onCloseOrExit code signal s = s) as ->
      by (unfold onCloseOrExit; by rewrite Hd).
    intros Hf. destruct (IH Hf) as (_ & ? & ?). by rewrite Hd. }
  destruct (onCloseOrExit_fields code signal s Hd) as (Hc & Hg & _ & _ & _ & Hep).
  rewrite Hep, (onCloseOrExit_promises code signal s HI Hd), lookup_settle_same.
  rewrite onCloseOrExit_done, Hc, Hg.
  destruct (promises s !! exitPromise (this s)) as [[]|] eqn:Hp; try done.
  - intros [= Hdec]. apply exit_decision_fulfilled in Hdec as [-> ->]. simpl.
    split_and!; [done|done|].
    destruct (_signal (this s)) eqn:Hsg; [|done].
    rewrite (inv_signal s HI) in Hd; [done|]. by rewrite Hsg.
  - intros _. destruct IH as (Hd' & _); [done|]. congruence.
Qed.

Lemma reachable_fulfilled s :
  reachable s →
  (promises s !! exitPromise (this s) = Some Promise.Fulfilled →
   _done (this s) = true ∧ _exitCode (this s) = Some 0 ∧ _signal (this s) = None) ∧
  (promises s !! spawnPromise (this s) = Some Promise.Fulfilled →
   _spawned (this s) = true ∨ is_Some (pid (_childProcess (this s)))).
Proof.
  intros Hr. induction Hr as [cp h|st s Hr [IHe IHs]].
  - unfold new, createSpawnPromise, createExitPromise, Promise.alloc.
    destruct (pid cp) as [n|] eqn:Hpid; simpl;
      rewrite lookup_alloc_first, lookup_alloc_last; split; try done.
    intros _. right. rewrite Hpid. by eexists.
  - pose proof (reachable_Inv s Hr) as HI. pose proof (inv_ne s HI) as Hne.
    destruct st as [[| e | c g | c g]|sg]; simpl.
    + destruct (onSpawn_this s) as [ee ->].
      rewrite (onSpawn_promises s HI). unfold Promise.resolve. simpl.
      rewrite Promise_settle_ne by done. split; [done|]. by left.
    + destruct (onError_this e s) as [ee ->].
      rewrite (onError_promises e s HI). unfold Promise.reject. simpl.
      rewrite lookup_settle_same, !Promise_settle_ne by done.
      rewrite lookup_settle_same.
      split.
      * destruct (promises s !! exitPromise (this s)) as [[]|]; try done.
      * destruct (promises s !! spawnPromise (this s)) as [[]|]; try done.
    + split; [by apply closeOrExit_fulfilled|].
      destruct (_done (this s)) eqn:Hd.
      { unfold onCloseOrExit. by rewrite Hd. }
      destruct (onCloseOrExit_fields c g s Hd) as (_ & _ & -> & -> & -> & _).
      rewrite (onCloseOrExit_promises c g s HI Hd).
      by rewrite Promise_settle_ne.
    + split; [by apply closeOrExit_fulfilled|].
      destruct (_done (this s)) eqn:Hd.
      { unfold onCloseOrExit. by rewrite Hd. }
      destruct (onCloseOrExit_fields c g s Hd) as (_ & _ & -> & -> & -> & _).
      rewrite (onCloseOrExit_promises c g s HI Hd).
      by rewrite Promise_settle_ne.
    + done.
Qed.

(** X5: a fulfilled "has terminated" promise means the tracker is done with
    exit code 0 and no signal, so [hasExitedSuccessfully()] is [true] and
    [wasKilled()] is [false]; a fulfilled "has started" promise means the
    started flag is set or the handle had its [pid] from the start. *)
Theorem fulfilled_promises_sound s :
  reachable s →
  (observe (waitForExit (this s)) s = Some Promise.Fulfilled →
   isDone (this s) = true ∧ exitCode (this s) = Some 0 ∧
   hasExitedSuccessfully (this s) = true ∧ hasExitedWithError (this s) = false ∧
   wasKilled (this s) = false) ∧
  (observe (waitForSpawn (this s)) s = Some Promise.Fulfilled →
   hasSpawned (this s) = true ∨ is_Some (pid (childProcess (this s)))).
Proof.
  intros Hr. destruct (reachable_fulfilled s Hr) as [He Hs].
  split; [|done].
  intros Hf. destruct (He Hf) as (Hd & Hc & Hg).
  unfold isDone, exitCode, hasExitedSuccessfully, hasExitedWithError, wasKilled.
  by rewrite Hd, Hc, Hg.
Qed.

Lemma fulfilled_promises_sound_witness :
  let s := run [Notify NSpawn; Kill (Some "SIGTERM"); Notify (NExit (Some 0) None)]
             (new (mkChildProcess None []) []) in
  observe (waitForExit (this s)) s = Some Promise.Fulfilled ∧
  hasExitedSuccessfully (this s) = true ∧ wasKilled (this s) = false.
Proof.
  split; [reflexivity|].
  pose proof (fulfilled_promises_sound
                (run [Notify NSpawn; Kill (Some "SIGTERM"); Notify (NExit (Some 0) None)]
                   (new (mkChildProcess None []) []))
                (run_reachable _ _ (reachable_new _ _))) as (H & _).
  destruct (H eq_refl) as (_ & _ & H1 & _ & H2).
  split; [exact H1|exact H2].
Defined.

(** X9: when a closed or exited notification decides the still pending "has
    terminated" promise (signal names being non-empty), the three outcome
    queries classify the termination the way the promise does: fulfilled with
    [hasExitedSuccessfully], rejected with [KilledWithSignalError] with
    [wasKilled], and rejected with [ExitedWithExitCodeError] or with the
    both-null error with [hasExitedWithError]. *)
Theorem queries_agree_with_outcome s (n : Notification)
    (code : option Z) (signal : option Signals) :
  reachable s →
  n = NClose code signal ∨ n = NExit code signal →
  observe (waitForExit (this s)) s = Some Promise.Pending →
  signal ≠ Some "" →
  let s' := deliver n s in
  let result := observe (waitForExit (this s')) s' in
  (hasExitedSuccessfully (this s') = true ↔ result = Some Promise.Fulfilled) ∧
  (wasKilled (this s') = true ↔
   ∃ sg, result = Some (Promise.Rejected (KilledWithSignalError sg))) ∧
  (hasExitedWithError (this s') = true ↔
   (∃ c, result = Some (Promise.Rejected (ExitedWithExitCodeError c))) ∨
   result = Some (Promise.Rejected (PlainError "Both code and signal are null."))).
Proof.
  intros Hr Hn Hp Hsig s' result.
  pose proof (reachable_Inv s Hr) as HI.
  pose proof (pending_not_done s HI Hp) as Hd.
  assert (Hs' : s' = onCloseOrExit code signal s)
    by (subst s'; by destruct Hn as [-> | ->]).
  destruct (onCloseOrExit_fields code signal s Hd) as (Hc & Hg & _ & _ & _ & Hep).
  assert (Hres : result = Some (exit_decision code signal)).
  { subst result. unfold observe, waitForExit. rewrite Hs', Hep.
    by apply onCloseOrExit_decides. }
  assert (Hec : _exitCode (this s) = None).
  { destruct (_exitCode (this s)) eqn:E; [|done].
    rewrite (inv_code s HI) in Hd; [done|]. by rewrite E. }
  assert (Hsg : _signal (this s) = None).
  { destruct (_signal (this s)) eqn:E; [|done].
    rewrite (inv_signal s HI) in Hd; [done|]. by rewrite E. }
  rewrite Hres. unfold hasExitedSuccessfully, hasExitedWithError, wasKilled.
  rewrite Hs', Hc, Hg, Hec, Hsg. clear Hres Hs' Hc Hg Hep.
  unfold exit_decision, truthy.
  destruct signal as [g|]; simpl.
  - rewrite decide_False by congruence. simpl.
    split_and!; split; try done; eauto.
    + by intros [[c [=]]|[=]].
  - destruct code as [c|]; simpl.
    + destruct (Z.eqb_spec c 0) as [->|Hc]; simpl.
      * split_and!; split; try done.
        -- by intros [sg [=]].
        -- by intros [[c [=]]|[=]].
      * rewrite bool_decide_eq_false_2 by congruence. simpl.
        split_and!; split; try done; eauto.
        by intros [sg [=]].
    + split_and!; split; try done; eauto.
      by intros [sg [=]].
Qed.

Lemma queries_agree_with_outcome_witness :
  let s := run [Notify NSpawn] (new (mkChildProcess None []) []) in
  let s' := deliver (NClose None (Some "SIGKILL")) s in
  observe (waitForExit (this s)) s = Some Promise.Pending ∧
  wasKilled (this s') = true ∧
  observe (waitForExit (this s')) s' =
    Some (Promise.Rejected (KilledWithSignalError "SIGKILL")).
Proof.
  split; [reflexivity|]. split; [|reflexivity].
  pose proof (queries_agree_with_outcome
                (run [Notify NSpawn] (new (mkChildProcess None []) []))
                (NClose None (Some "SIGKILL")) None (Some "SIGKILL")
                (run_reachable _ _ (reachable_new _ _)) (or_introl eq_refl) eq_refl)
    as H.
  destruct H as (_ & H & _); [discriminate|].
  apply H. by eexists.
Defined.

End TrackerExtras.

(** * Further properties of the coordinator *)

Section CoordinatorExtras.
Import Spawnable.

Lemma State_eta (s : Spawned.State) :
  Spawned.mkState (Spawned.this s) (Spawned.promises s) = s.
Proof. by destruct s. Qed.

(** X10: the tracker owned by a coordinator is always in a state that the
    tracker's own constructor, notifications and [kill] calls can produce, so
    everything shown for reachable tracker states holds for it. *)
Theorem coordinator_tracker_reachable (w : World) (sp : Spawned.t) :
  reachable w →
  spawned (this w) = Some sp →
  Spawned.reachable (Spawned.mkState sp (promises w)).
Proof.
  intros Hr. revert sp. induction Hr as [cmd opts impl|st w Hr IH]; intros sp.
  { done. }
  destruct st as [m|n]; simpl.
  - destruct m as [| | | | | | | | | sg | |]; simpl; try (by apply IH).
    + unfold spawn.
      destruct (spawned (this w)) as [sp0|] eqn:Hsp; simpl;
        [rewrite Hsp; by apply IH|].
      destruct (command (this w)) as [|first rest]; simpl; [by rewrite Hsp|].
      destruct (decide (first = "")); simpl; [by rewrite Hsp|].
      destruct (spawn_impl (child_process w) _) as [cp|e]; simpl; [|by rewrite Hsp].
      intros [= <-]. rewrite State_eta. constructor.
    + unfold kill.
      destruct (spawned (this w)) as [sp0|] eqn:Hsp; simpl; [|by rewrite Hsp].
      intros [= <-].
      apply (Spawned.reachable_step (Spawned.Kill (Some (default "SIGINT" sg)))
               (Spawned.mkState sp0 (promises w))).
      by apply IH.
  - destruct (spawned (this w)) as [sp0|] eqn:Hsp; simpl; [|by rewrite Hsp].
    intros [= <-]. rewrite State_eta.
    apply (Spawned.reachable_step (Spawned.Notify n)). by apply IH.
Qed.

Lemma coordinator_tracker_reachable_witness :
  let w := run [Invoke M_spawn; Notify NSpawn; Invoke (M_kill None);
                Notify (NClose None (Some "SIGINT"))]
             (init ["sleep"; "60"] None (fun _ => Returns (mkChildProcess None []))) in
  ∃ sp, spawned (this w) = Some sp ∧
        Spawned.reachable (Spawned.mkState sp (promises w)).
Proof.
  eexists. split; [reflexivity|].
  apply (coordinator_tracker_reachable
           (run [Invoke M_spawn; Notify NSpawn; Invoke (M_kill None);
                 Notify (NClose None (Some "SIGINT"))]
              (init ["sleep"; "60"] None (fun _ => Returns (mkChildProcess None []))))).
  - apply coordinator_run_reachable, reachable_init.
  - reflexivity.
Defined.

(** *** Calls to the creation primitive *)

Lemma step_creation st w :
  command (this (step st w)) = command (this w) ∧
  options (this (step st w)) = options (this w) ∧
  spawn_impl (child_process (step st w)) = spawn_impl (child_process w) ∧
  ((spawn_calls (child_process (step st w)) = spawn_calls (child_process w) ∧
    (is_Some (spawned (this (step st w))) → is_Some (spawned (this w)))) ∨
   (∃ first rest,
      command (this w) = first :: rest ∧ first ≠ "" ∧
      spawned (this w) = None ∧
      spawn_calls (child_process (step st w)) =
        spawn_calls (child_process w) ++
        [mkSpawnCall first rest (options (this w))])).
Proof.
  destruct st as [m|n]; simpl.
  - destruct m; simpl; try (split_and!; try done; by left).
    + unfold spawn.
      destruct (spawned (this w)) as [sp0|] eqn:Hsp; simpl;
        [split_and!; try done; by left|].
      destruct (command (this w)) as [|first rest] eqn:Hcmd; simpl;
        [split_and!; try done; left; by rewrite Hsp|].
      destruct (decide (first = "")); simpl;
        [split_and!; try done; left; by rewrite Hsp|].
      destruct (spawn_impl (child_process w) _) as [cp|e]; simpl;
        (split_and!; try done; right; by exists first, rest).
    + unfold kill. destruct (spawned (this w)) as [sp0|] eqn:Hsp; simpl;
        split_and!; try done; left; split; try done; by rewrite Hsp.
  - destruct (spawned (this w)) as [sp0|] eqn:Hsp; simpl;
      split_and!; try done; left; split; try done; by rewrite Hsp.
Qed.

(** X11: every recorded call to the creation primitive passes the first element
    of the command as the executable, the remaining elements as its
    arguments and the options unchanged; a coordinator that owns a tracker
    has made such a call, and from then on no step invokes the primitive
    again. *)
Theorem creation_calls (w : World) :
  reachable w →
  (∀ c, c ∈ spawn_calls (child_process w) →
        ∃ first rest, command (this w) = first :: rest ∧ first ≠ "" ∧
                      c = mkSpawnCall first rest (options (this w))) ∧
  (is_Some (spawned (this w)) →
   spawn_calls (child_process w) ≠ [] ∧
   ∀ st, spawn_calls (child_process (step st w)) = spawn_calls (child_process w)).
Proof.
  intros Hr.
  assert (Hfrozen : ∀ w st, is_Some (spawned (this w)) →
            spawn_calls (child_process (step st w)) = spawn_calls (child_process w)).
  { clear. intros w st [sp Hsp].
    destruct (step_creation st w) as (_ & _ & _ & [[? _]|(f & r & _ & _ & Hn & _)]);
      [done|congruence]. }
  induction Hr as [cmd opts impl|st w Hr [IH1 IH2]].
  - split.
    + intros c Hc. by apply elem_of_nil in Hc.
    + by intros [? [=]].
  - destruct (step_creation st w)
      as (Hcmd & Hopts & _ & [[Hcalls Hsp]|(f & r & Hc & Hf & Hn & Hcalls)]).
    + rewrite Hcmd, Hopts, Hcalls. split; [done|].
      intros Hs. split; [by apply IH2, Hsp|]. intros st'. rewrite <- Hcalls.
      by apply Hfrozen.
    + rewrite Hcmd, Hopts, Hcalls. split.
      * intros c [Hin|Hin]%elem_of_app; [by apply IH1|].
        apply list_elem_of_singleton in Hin as ->. by exists f, r.
      * intros Hs. split; [by destruct (spawn_calls (child_process w))|].
        intros st'. rewrite <- Hcalls. by apply Hfrozen.
Qed.

Lemma creation_calls_witness :
  let w := run [Invoke M_spawn; Invoke M_spawn; Notify NSpawn]
             (init ["ls"; "-la"; "/tmp"] (Some (mkSpawnOptions true None []))
                (fun _ => Returns (mkChildProcess None []))) in
  spawn_calls (child_process w) =
    [mkSpawnCall "ls" ["-la"; "/tmp"] (Some (mkSpawnOptions true None []))] ∧
  spawn_calls (child_process (step (Invoke M_spawn) w)) =
    spawn_calls (child_process w).
Proof.
  split; [reflexivity|].
  pose proof (creation_calls
                (run [Invoke M_spawn; Invoke M_spawn; Notify NSpawn]
                   (init ["ls"; "-la"; "/tmp"] (Some (mkSpawnOptions true None []))
                      (fun _ => Returns (mkChildProcess None []))))
                (coordinator_run_reachable _ _ (reachable_init _ _ _))) as (_ & H).
  destruct H as (_ & H); [by eexists|]. apply H.
Defined.

Lemma spawn_throws w first rest e :
  spawned (this w) = None →
  command (this w) = first :: rest → first ≠ "" →
  spawn_impl (child_process w) (mkSpawnCall first rest (options (this w))) = Throws e →
  spawn w =
  (AsyncThrows e,
   mkWorld (this w) (promises w)
     (mkChildProcessModule (spawn_impl (child_process w))
        (spawn_calls (child_process w) ++
         [mkSpawnCall first rest (options (this w))]))).
Proof.
  intros Hsp Hcmd Hne Himpl. unfold spawn, node_spawn.
  rewrite Hsp, Hcmd, decide_False by done. simpl. by rewrite Himpl.
Qed.

(** X12: when the creation primitive throws for the coordinator's command, no
    execution ever gives the coordinator a tracker: every [spawn()] rejects
    with the primitive's error, records one more attempt and leaves the
    coordinator unstarted with the promise heap untouched. *)
Theorem creation_failure_keeps_unstarted
    (first : string) (rest : list string) (opts : option SpawnOptions)
    (impl : SpawnCall → Completion ChildProcess) (e : Error) (sts : list Step) :
  first ≠ "" →
  impl (mkSpawnCall first rest opts) = Throws e →
  let w := run sts (init (first :: rest) opts impl) in
  spawned (this w) = None ∧
  promises w = [] ∧
  fst (spawn w) = AsyncThrows e ∧
  this (snd (spawn w)) = this w ∧
  promises (snd (spawn w)) = promises w ∧
  spawn_calls (child_process (snd (spawn w))) =
    spawn_calls (child_process w) ++ [mkSpawnCall first rest opts].
Proof.
  intros Hne Himpl.
  assert (HJ : ∀ sts w,
    (command (this w) = first :: rest ∧ options (this w) = opts ∧
     spawn_impl (child_process w) = impl ∧ spawned (this w) = None ∧
     promises w = []) →
    (command (this (run sts w)) = first :: rest ∧
     options (this (run sts w)) = opts ∧
     spawn_impl (child_process (run sts w)) = impl ∧
     spawned (this (run sts w)) = None ∧ promises (run sts w) = [])).
  { clear sts. induction sts as [|st sts IH]; intros w HJ; simpl; [done|].
    apply IH. destruct HJ as (Hcmd & Hopts & Hi & Hsp & Hh).
    destruct st as [m|n]; simpl.
    - destruct m; simpl; try done.
      + rewrite (spawn_throws w first rest e); simpl; try done.
        by rewrite Hi, Hopts.
      + unfold kill. by rewrite Hsp.
    - by rewrite Hsp. }
  intros w. destruct (HJ sts (init (first :: rest) opts impl))
    as (Hcmd & Hopts & Hi & Hsp & Hh); [done|].
  fold w in Hcmd, Hopts, Hi, Hsp, Hh.
  rewrite (spawn_throws w first rest e); simpl; try done.
  - by rewrite Hopts.
  - by rewrite Hi, Hopts.
Qed.

Lemma creation_failure_keeps_unstarted_witness :
  let impl := fun _ : SpawnCall => Throws (A := ChildProcess) (PlainError "ERR_INVALID_ARG_TYPE") in
  let w := run [Invoke M_spawn; Notify NSpawn; Invoke M_spawn]
             (init ["ls"] None impl) in
  spawned (this w) = None ∧
  fst (spawn w) = AsyncThrows (PlainError "ERR_INVALID_ARG_TYPE") ∧
  List.length (spawn_calls (child_process (snd (spawn w)))) = 3%nat.
Proof.
  pose proof (creation_failure_keeps_unstarted "ls" [] None
                (fun _ => Throws (PlainError "ERR_INVALID_ARG_TYPE"))
                (PlainError "ERR_INVALID_ARG_TYPE")
                [Invoke M_spawn; Notify NSpawn; Invoke M_spawn]
                ltac:(discriminate) eq_refl) as (H1 & _ & H2 & _).
  split; [exact H1|]. split; [exact H2|reflexivity].
Defined.

(** *** The tracker is created once and kept *)

Lemma step_tracker st w sp :
  spawned (this w) = Some sp →
  ∃ sp', spawned (this (step st w)) = Some sp' ∧
         Spawned.spawnPromise sp' = Spawned.spawnPromise sp ∧
         Spawned.exitPromise sp' = Spawned.exitPromise sp ∧
         pid (Spawned._childProcess sp') = pid (Spawned._childProcess sp).
Proof.
  intros Hsp.
  assert (Hstep : ∀ tst,
    ∃ sp', Spawned.this (Spawned.step tst (Spawned.mkState sp (promises w))) = sp' ∧
           Spawned.spawnPromise sp' = Spawned.spawnPromise sp ∧
           Spawned.exitPromise sp' = Spawned.exitPromise sp ∧
           pid (Spawned._childProcess sp') = pid (Spawned._childProcess sp)).
  { intros tst. eexists. split; [done|].
    destruct (step_ids tst (Spawned.mkState sp (promises w))) as [-> ->].
    rewrite step_childProcess. by destruct tst. }
  destruct st as [m|n]; simpl.
  - destruct m as [| | | | | | | | | sg | |]; simpl; try (by exists sp).
    + rewrite spawn_spawned by (by rewrite Hsp). by exists sp.
    + unfold kill. rewrite Hsp. simpl.
      destruct (Hstep (Spawned.Kill (Some (default "SIGINT" sg))))
        as (sp' & <- & ?). by eexists.
  - rewrite Hsp. simpl.
    destruct (Hstep (Spawned.Notify n)) as (sp' & <- & ?). by eexists.
Qed.

Lemma run_tracker sts w sp :
  spawned (this w) = Some sp →
  ∃ sp', spawned (this (run sts w)) = Some sp' ∧
         Spawned.spawnPromise sp' = Spawned.spawnPromise sp ∧
         Spawned.exitPromise sp' = Spawned.exitPromise sp ∧
         pid (Spawned._childProcess sp') = pid (Spawned._childProcess sp).
Proof.
  revert w sp. induction sts as [|st sts IH]; intros w sp Hsp; simpl.
  - by exists sp.
  - destruct (step_tracker st w sp Hsp) as (sp1 & Hsp1 & <- & <- & <-).
    by apply IH.
Qed.

Lemma new_childProcess (cp : ChildProcess) (h : list Promise.t) :
  Spawned._childProcess (Spawned.this (Spawned.new cp h)) = cp.
Proof.
  unfold Spawned.new, Spawned.createSpawnPromise, Spawned.createExitPromise,
    Promise.alloc.
  by destruct (pid cp).
Qed.

(** X13: a [spawn()] that suspends has called the primitive with the command
    split into executable and arguments, wraps the handle it got back, and
    awaits the tracker's "has started" promise; in every later state
    [waitForSpawn()] and [waitForExit()] still await that tracker's promises
    and [childProcess()] is still that process. *)
Theorem spawn_awaits_tracker (w w1 : World) (p : nat) :
  spawn w = (AsyncAwaits p, w1) →
  ∃ first rest cp q,
    command (this w) = first :: rest ∧ first ≠ "" ∧
    spawn_impl (child_process w) (mkSpawnCall first rest (options (this w)))
      = Returns cp ∧
    childProcess (this w1) = Some cp ∧
    waitForExit w1 = AsyncAwaits q ∧
    ∀ later, let w2 := run later w1 in
      waitForSpawn w2 = AsyncAwaits p ∧
      waitForExit w2 = AsyncAwaits q ∧
      (pid <$> childProcess (this w2)) = Some (pid cp).
Proof.
  unfold spawn, node_spawn.
  destruct (spawned (this w)) as [sp0|] eqn:Hsp; [done|].
  destruct (command (this w)) as [|first rest] eqn:Hcmd; [done|].
  destruct (decide (first = "")) as [|Hne]; [done|]. simpl.
  destruct (spawn_impl (child_process w) _) as [cp|e] eqn:Himpl; [|done].
  intros [= <- <-].
  exists first, rest, cp,
    (Spawned.exitPromise (Spawned.this (Spawned.new cp (promises w)))).
  split_and!; try done.
  - unfold childProcess. simpl. unfold Spawned.childProcess.
    by rewrite new_childProcess.
  - intros later. cbv zeta.
    match goal with |- context [run later ?w1] =>
      destruct (run_tracker later w1 _ eq_refl) as (sp' & Hsp' & Hp & Hq & Hpid)
    end.
    unfold waitForSpawn, waitForExit, childProcess.
    rewrite Hsp'. simpl.
    unfold Spawned.waitForSpawn, Spawned.waitForExit, Spawned.childProcess.
    rewrite Hp, Hq, Hpid, new_childProcess. by split_and!.
Qed.

Lemma spawn_awaits_tracker_witness :
  let w := init ["node"; "server.js"] None
             (fun _ => Returns (mkChildProcess (Some 1337%nat) [])) in
  let w2 := run [Notify NSpawn; Invoke (M_kill None); Invoke M_spawn;
                 Notify (NExit None (Some "SIGINT"))] (snd (spawn w)) in
  fst (spawn w) = AsyncAwaits 0 ∧
  waitForSpawn w2 = AsyncAwaits 0 ∧
  (pid <$> childProcess (this w2)) = Some (Some 1337%nat).
Proof.
  split; [reflexivity|].
  destruct (spawn_awaits_tracker
              (init ["node"; "server.js"] None
                 (fun _ => Returns (mkChildProcess (Some 1337%nat) [])))
              _ 0%nat eq_refl)
    as (first & rest & cp & q & _ & _ & Hcp & _ & _ & H).
  injection Hcp as <-.
  destruct (H [Notify NSpawn; Invoke (M_kill None); Invoke M_spawn;
               Notify (NExit None (Some "SIGINT"))]) as (H1 & _ & H2).
  split; [exact H1|exact H2].
Defined.

End CoordinatorExtras.
